(** * Portfolio frontend: the reactive state layer

    A shallow embedding of the client-side state layer of the portfolio
    application (Svelte stores, the toast queue, the API client, the derived
    skill views and the contact-form validation), with the properties the
    specification states about them.

    Conventions of the embedding:
    - a Svelte [writable] store is a field of the record [World]; [set] and
      [update] are state transformers on that record;
    - an [async] action is split at its single [await]: what happens after the
      await is a function of how the awaited promise settled ([Settled]);
    - [Math.random] and the timer facility ([setTimeout]) are part of the
      world: the first as the sequence of values it is going to produce, the
      second as the list of callbacks that are pending;
    - [x || d] on a value typed [T | undefined] is written out with the
      falsy values of [T] ([0] for numbers, the empty string for strings). *)

From Stdlib Require Import ZArith List String Ascii Bool Lia Permutation Sorted.
From stdpp Require Import base tactics option list strings pretty gmap.

Local Open Scope Z_scope.

(** ** Types of [$lib/types] *)

Module Project.
Record t := mk {
  id : Z;
  title : string;
  description : string;
  long_description : option string;
  technologies : list string;
  github_url : option string;
  demo_url : option string;
  image_url : option string;
  category : string;
  featured : bool;
  created_at : string
}.

#[global] Instance eq_dec : EqDecision t.
Proof. solve_decision. Defined.
End Project.

Module ApiError.
Record t := mk {
  code : string;
  message : string;
  details : option (list string)
}.
End ApiError.

Module LoadingState.
Record t := mk {
  isLoading : bool;
  error : option ApiError.t
}.
End LoadingState.

(** [ApiResponse<T>] of the API client: [data] and [error] are optional. *)
Module ApiResponse.
Record t (T : Type) := mk {
  success : bool;
  data : option T;
  error : option ApiError.t
}.
Arguments mk {T} _ _ _.
Arguments success {T} _.
Arguments data {T} _.
Arguments error {T} _.
End ApiResponse.

(** How the promise returned by an [apiClient] method settles. The reason of
    a rejection is an [Error]; only its message is kept. *)
Inductive Settled (T : Type) : Type :=
| Resolved (response : ApiResponse.t T)
| Rejected (reason : string).
Arguments Resolved {T} _.
Arguments Rejected {T} _.

(** ** The toast store ([stores/toast.ts]) *)

Module ToastType.
Inductive t := success | error | warning | info.

#[global] Instance eq_dec : EqDecision t.
Proof. solve_decision. Defined.
End ToastType.

Module Toast.
Record t := mk {
  id : string;
  type : ToastType.t;
  title : string;
  message : option string;
  duration : Z;
  dismissible : bool
}.
End Toast.

Module ToastOptions.
Record t := mk {
  type : option ToastType.t;
  title : string;
  message : option string;
  duration : option Z;
  dismissible : option bool
}.
End ToastOptions.

(** A pending [setTimeout(() => this.dismiss(id), delay)]. *)
Record Timer := mkTimer {
  delay : Z;
  dismisses : string
}.

(** ** The world the stores live in *)

Record World := mkWorld {
  projects : list Project.t;
  projectsLoading : LoadingState.t;
  toasts : list Toast.t;
  timers : list Timer;
  (** [entropy n] is what the [n]-th evaluation of
      [Math.random().toString(36)] yields; [draws] counts the evaluations. *)
  entropy : nat -> string;
  draws : nat
}.

Definition Action (A : Type) : Type := World -> A * World.

#[global] Instance Action_ret : MRet Action := fun A a w => (a, w).
#[global] Instance Action_bind : MBind Action := fun A B k m w =>
  let (a, w') := m w in k a w'.

(** The world after an action. *)
Definition exec {A} (m : Action A) (w : World) : World := snd (m w).
(** The value an action returns. *)
Definition eval {A} (m : Action A) (w : World) : A := fst (m w).

Definition projects_set (v : list Project.t) : Action unit := fun w =>
  (tt, mkWorld v (projectsLoading w) (toasts w) (timers w) (entropy w) (draws w)).
Definition projects_update (f : list Project.t -> list Project.t) : Action unit := fun w =>
  (tt, mkWorld (f (projects w)) (projectsLoading w) (toasts w) (timers w) (entropy w) (draws w)).
Definition projectsLoading_update (f : LoadingState.t -> LoadingState.t) : Action unit := fun w =>
  (tt, mkWorld (projects w) (f (projectsLoading w)) (toasts w) (timers w) (entropy w) (draws w)).
Definition toasts_set (v : list Toast.t) : Action unit := fun w =>
  (tt, mkWorld (projects w) (projectsLoading w) v (timers w) (entropy w) (draws w)).
Definition toasts_update (f : list Toast.t -> list Toast.t) : Action unit := fun w =>
  (tt, mkWorld (projects w) (projectsLoading w) (f (toasts w)) (timers w) (entropy w) (draws w)).
Definition setTimeout (id : string) (ms : Z) : Action unit := fun w =>
  (tt, mkWorld (projects w) (projectsLoading w) (toasts w) (timers w ++ [mkTimer ms id])
         (entropy w) (draws w)).
(** [Math.random().toString(36)] *)
Definition Math_random_toString36 : Action string := fun w =>
  (entropy w (draws w),
   mkWorld (projects w) (projectsLoading w) (toasts w) (timers w) (entropy w) (S (draws w))).

(** [s.substr(start, len)]: at most [len] characters from [start] on. *)
Definition substr (start len : nat) (s : string) : string := String.substring start len s.

(** [x || d] for an optional number: [undefined] and [0] are falsy. *)
Definition or_number (x : option Z) (d : Z) : Z :=
  match x with
  | Some n => if n =? 0 then d else n
  | None => d
  end.

(** [x || d] for an optional string: [undefined] and the empty string are falsy. *)
Definition or_string (x : option string) (d : string) : string :=
  match x with
  | Some EmptyString => d
  | Some s => s
  | None => d
  end.

Module toastStore.

(** [toasts.update(currentToasts => currentToasts.filter(toast => toast.id !== id))] *)
Definition dismiss (id : string) : Action unit :=
  toasts_update (filter (fun toast => Toast.id toast ≠ id)).

Definition add (options : ToastOptions.t) : Action string :=
  r ← Math_random_toString36;
  let id := substr 2 9 r in
  let toast := Toast.mk id
                 (default ToastType.info (ToastOptions.type options))
                 (ToastOptions.title options)
                 (ToastOptions.message options)
                 (or_number (ToastOptions.duration options) 5000)
                 (match ToastOptions.dismissible options with
                  | Some false => false
                  | _ => true
                  end) in
  toasts_update (fun currentToasts => currentToasts ++ [toast]) ;;
  (if 0 <? Toast.duration toast
   then setTimeout id (Toast.duration toast)
   else mret tt) ;;
  mret id.

Definition clear : Action unit := toasts_set [].

Definition success (title : string) (message : option string) (duration : option Z)
  : Action string :=
  add (ToastOptions.mk (Some ToastType.success) title message duration None).

Definition error (title : string) (message : option string) (duration : option Z)
  : Action string :=
  add (ToastOptions.mk (Some ToastType.error) title message
         (Some (or_number duration 8000)) None).

Definition warning (title : string) (message : option string) (duration : option Z)
  : Action string :=
  add (ToastOptions.mk (Some ToastType.warning) title message duration None).

Definition info (title : string) (message : option string) (duration : option Z)
  : Action string :=
  add (ToastOptions.mk (Some ToastType.info) title message duration None).

End toastStore.

(** ** The projects store ([stores/projects.ts])

    [logApiError] only appends to the error logger's own buffer and writes to
    the console; it reads and writes none of the stores, so it is left out of
    [World]. *)

Module projectsStore.

(** [response.error?.message] *)
Definition error_message {T} (response : ApiResponse.t T) : option string :=
  ApiError.message <$> ApiResponse.error response.

(** The part of [loadProjects] before [await apiClient.getProjects(...)]. *)
Definition loadProjects_begin : Action unit :=
  projectsLoading_update (fun state => LoadingState.mk true None).

(** The part of [loadProjects] after the await. An array is truthy, also
    when empty, so [response.success && response.data] is true exactly when
    [success] holds and [data] is present. *)
Definition loadProjects_settle (settled : Settled (list Project.t)) : Action unit :=
  match settled with
  | Resolved response =>
      match ApiResponse.success response, ApiResponse.data response with
      | true, Some data =>
          projects_set data ;;
          projectsLoading_update (fun state =>
            LoadingState.mk false (LoadingState.error state))
      | _, _ =>
          let errorMsg :=
            or_string (error_message response) "Erreur lors du chargement des projets" in
          projectsLoading_update (fun state =>
            LoadingState.mk false
              (Some (default (ApiError.mk "UNKNOWN_ERROR" errorMsg None)
                             (ApiResponse.error response)))) ;;
          toastStore.error "Erreur de chargement" (Some errorMsg) None ;;
          mret tt
      end
  | Rejected _ =>
      let errorMsg := "Impossible de se connecter au serveur" in
      projectsLoading_update (fun state =>
        LoadingState.mk false (Some (ApiError.mk "NETWORK_ERROR" errorMsg None))) ;;
      toastStore.error "Erreur réseau" (Some errorMsg) None ;;
      mret tt
  end.

Definition loadProjects (settled : Settled (list Project.t)) : Action unit :=
  loadProjects_begin ;; loadProjects_settle settled.

(** [createProject] does nothing before its await. *)
Definition createProject (settled : Settled Project.t) : Action bool :=
  match settled with
  | Resolved response =>
      match ApiResponse.success response, ApiResponse.data response with
      | true, Some data =>
          projects_update (fun currentProjects => currentProjects ++ [data]) ;;
          toastStore.success "Projet créé" (Some "Le projet a été créé avec succès") None ;;
          mret true
      | _, _ =>
          let errorMsg :=
            or_string (error_message response) "Erreur lors de la création du projet" in
          toastStore.error "Erreur de création" (Some errorMsg) None ;;
          mret false
      end
  | Rejected _ =>
      toastStore.error "Erreur réseau" (Some "Impossible de créer le projet") None ;;
      mret false
  end.

Definition updateProject (id : Z) (settled : Settled Project.t) : Action bool :=
  match settled with
  | Resolved response =>
      match ApiResponse.success response, ApiResponse.data response with
      | true, Some data =>
          projects_update (fun currentProjects =>
            map (fun project => if Project.id project =? id then data else project)
                currentProjects) ;;
          toastStore.success "Projet mis à jour"
            (Some "Le projet a été mis à jour avec succès") None ;;
          mret true
      | _, _ =>
          let errorMsg :=
            or_string (error_message response) "Erreur lors de la mise à jour du projet" in
          toastStore.error "Erreur de mise à jour" (Some errorMsg) None ;;
          mret false
      end
  | Rejected _ =>
      toastStore.error "Erreur réseau" (Some "Impossible de mettre à jour le projet") None ;;
      mret false
  end.

Definition deleteProject (id : Z) (settled : Settled unit) : Action bool :=
  match settled with
  | Resolved response =>
      if ApiResponse.success response then
        projects_update (fun currentProjects =>
          filter (fun project => Project.id project ≠ id) currentProjects) ;;
        toastStore.success "Projet supprimé"
          (Some "Le projet a été supprimé avec succès") None ;;
        mret true
      else
        let errorMsg :=
          or_string (error_message response) "Erreur lors de la suppression du projet" in
        toastStore.error "Erreur de suppression" (Some errorMsg) None ;;
        mret false
  | Rejected _ =>
      toastStore.error "Erreur réseau" (Some "Impossible de supprimer le projet") None ;;
      mret false
  end.

Definition clearError : Action unit :=
  projectsLoading_update (fun state => LoadingState.mk (LoadingState.isLoading state) None).

End projectsStore.

(** The derived stores of [stores/projects.ts]. *)
Definition featuredProjects (w : World) : list Project.t :=
  filter (fun project => Project.featured project = true) (projects w).

(** ** Skills: the badge labels and the derived view grouped by category *)

Module Skill.
Record t := mk {
  id : Z;
  name : string;
  category : string;
  level : Z;
  years_experience : option Z;
  description : option string
}.
End Skill.

(** [arr[i]] for a whole number [i]: [undefined] outside of [0 .. length-1]. *)
Definition index {A} (arr : list A) (i : Z) : option A :=
  if i <? 0 then None else arr !! Z.to_nat i.

Definition levels : list string :=
  ["Débutant"; "Intermédiaire"; "Confirmé"; "Expert"; "Maître"].

(** [SkillBadge.svelte]: [levels[level - 1] || 'Débutant'] *)
Definition getSkillLevelDisplay (level : Z) : string :=
  or_string (index levels (level - 1)) "Débutant".

(** The members every object literal inherits from [Object.prototype]; each of
    them is a function or an object, hence truthy, and none has a [push]. *)
Definition Object_prototype_keys : list string :=
  ["constructor"; "__proto__"; "hasOwnProperty"; "isPrototypeOf";
   "propertyIsEnumerable"; "toLocaleString"; "toString"; "valueOf";
   "__defineGetter__"; "__defineSetter__"; "__lookupGetter__"; "__lookupSetter__"].

(** [arr.sort(compare)]: the sort of the language is stable, and for a
    consistent comparator every stable sort gives the same array. [insert]
    puts [x] in front of the first element it does not come after. *)
Fixpoint insert_by {A} (compare : A -> A -> Z) (x : A) (l : list A) : list A :=
  match l with
  | [] => [x]
  | y :: l' => if compare x y <=? 0 then x :: y :: l' else y :: insert_by compare x l'
  end.

Definition sort_by {A} (compare : A -> A -> Z) (l : list A) : list A :=
  foldr (insert_by compare) [] l.

(** Byte-wise (case-sensitive) lexicographic order on strings, the order of
    the default [Array.prototype.sort()] and of [<] on strings. *)
Definition lexicographic_le (a b : string) : Prop := String.leb a b = true.

Section skillsByCategory.

(** [a.localeCompare(b)] is the host's locale-sensitive collation: negative,
    zero or positive. The language only requires of it to be a consistent
    comparator. *)
Variable localeCompare : string -> string -> Z.

(** The comparator handed to [sort]. *)
Definition compareSkills (a b : Skill.t) : Z :=
  if bool_decide (Skill.level a ≠ Skill.level b)
  then Skill.level b - Skill.level a
  else localeCompare (Skill.name a) (Skill.name b).

(** One turn of the [forEach] that fills [grouped]; [None] is the
    [TypeError] of calling the missing [push] of an inherited member. *)
Definition group_skill (grouped : gmap string (list Skill.t)) (skill : Skill.t)
  : option (gmap string (list Skill.t)) :=
  match grouped !! Skill.category skill with
  | Some group => Some (<[Skill.category skill := group ++ [skill]]> grouped)
  | None =>
      if bool_decide (Skill.category skill ∈ Object_prototype_keys)
      then None
      else Some (<[Skill.category skill := [skill]]> grouped)
  end.

Definition group_skills (skills : list Skill.t) : option (gmap string (list Skill.t)) :=
  foldl (fun grouped skill => grouped ≫= fun g => group_skill g skill) (Some ∅) skills.

Definition skillsByCategory (skills : list Skill.t) : option (gmap string (list Skill.t)) :=
  match group_skills skills with
  | Some grouped => Some (sort_by compareSkills <$> grouped)
  | None => None
  end.

End skillsByCategory.

(** A collation that ranks letters before their case, as the collations of
    the hosts do: ASCII letters are compared with their case folded. *)
Definition fold_case (c : ascii) : N :=
  let n := N_of_ascii c in
  if ((65 <=? n) && (n <=? 90))%N then (n + 32)%N else n.

Fixpoint compare_keys (k1 k2 : list N) : Z :=
  match k1, k2 with
  | [], [] => 0
  | [], _ :: _ => -1
  | _ :: _, [] => 1
  | x :: k1', y :: k2' =>
      if (x <? y)%N then -1 else if (y <? x)%N then 1 else compare_keys k1' k2'
  end.

Definition alphabetic_compare (a b : string) : Z :=
  compare_keys (fold_case <$> list_ascii_of_string a) (fold_case <$> list_ascii_of_string b).

(** ** The API client ([api/client.ts])

    At run time the type parameter of [ApiResponse<T>] is gone: [request]
    handles whatever value [response.json()] produces. *)

Module Js.
(** The values [JSON.parse] can produce, and [undefined], which reading a
    missing member produces. Numbers are kept as whole numbers: [request]
    looks at a number only to tell zero from non-zero. *)
#[warnings="-register-all"] Inductive value :=
| Undefined
| Null
| Boolean (b : bool)
| Number (n : Z)
| Str (s : string)
| Array (elements : list value)
| Object (members : list (string * value)).

Fixpoint member (key : string) (members : list (string * value)) : value :=
  match members with
  | [] => Undefined
  | (k, v) :: rest => if String.eqb k key then v else member key rest
  end.

Definition truthy (v : value) : bool :=
  match v with
  | Undefined | Null => false
  | Boolean b => b
  | Number n => negb (n =? 0)
  | Str EmptyString => false
  | Str _ => true
  | Array _ | Object _ => true
  end.

(** A computation that completes normally or throws. *)
Inductive completion (A : Type) :=
| Normal (a : A)
| Throw (reason : string).
Arguments Normal {A} _.
Arguments Throw {A} _.

#[global] Instance completion_ret : MRet completion := fun A a => Normal a.
#[global] Instance completion_bind : MBind completion := fun A B k m =>
  match m with
  | Normal a => k a
  | Throw reason => Throw reason
  end.

(** [try { body } catch (error) { handler }] *)
Definition try_catch {A} (body : completion A) (handler : string -> completion A)
  : completion A :=
  match body with
  | Normal a => Normal a
  | Throw reason => handler reason
  end.

(** [v.key]: a [TypeError] on [null] and [undefined]; neither arrays,
    strings, numbers nor booleans have a member called [error], nor does
    any prototype. *)
Definition get (v : value) (key : string) : completion value :=
  match v with
  | Undefined | Null => Throw "TypeError"
  | Object members => Normal (member key members)
  | _ => Normal Undefined
  end.

(** [a || b] *)
Definition or (a b : value) : value := if truthy a then a else b.
End Js.

Module ApiClient.
Import Js.

(** What [fetch] resolves with: [json] is the completion of
    [await response.json()], which throws when the body is not JSON. *)
Record Response := mkResponse {
  ok : bool;
  status : Z;
  statusText : string;
  json : completion value
}.

Definition failure (error : value) : value :=
  Object [("success", Boolean false); ("error", error)].

Definition http_error (response : Response) : value :=
  Object [("code", Str "HTTP_ERROR");
          ("message", Str ("HTTP " +:+ pretty (status response) +:+ ": "
                           +:+ statusText response))].

Definition network_error : value :=
  Object [("code", Str "NETWORK_ERROR"); ("message", Str "Failed to connect to server")].

(** [request]; [fetched] is the completion of [await fetch(url, ...)]. *)
Definition request (fetched : completion Response) : completion value :=
  try_catch
    (response ← fetched;
     data ← json response;
     if negb (ok response) then
       error ← get data "error";
       mret (failure (or error (http_error response)))
     else
       mret data)
    (fun error => mret (failure network_error)).

(** The normalized result shape: an object whose [success] member is a
    boolean; when it is [false], [error] is an object with a string [code]
    and a string [message] (and, if present, an array of strings as
    [details]). *)
Definition is_string (v : value) : bool :=
  match v with Str _ => true | _ => false end.

Definition is_ApiError (v : value) : bool :=
  match v with
  | Object members =>
      is_string (member "code" members) && is_string (member "message" members)
      && match member "details" members with
         | Undefined => true
         | Array elements => forallb is_string elements
         | _ => false
         end
  | _ => false
  end.

Definition is_ApiResponse (v : value) : bool :=
  match v with
  | Object members =>
      match member "success" members with
      | Boolean true => true
      | Boolean false => is_ApiError (member "error" members)
      | _ => false
      end
  | _ => false
  end.

(** The [code] of the error a result carries. *)
Definition error_code (v : value) : value :=
  match v with
  | Object members =>
      match member "error" members with
      | Object error => member "code" error
      | _ => Undefined
      end
  | _ => Undefined
  end.
End ApiClient.

(** ** Contact form validation ([ContactForm.svelte]) *)

Module ContactForm.

(** A string of the language is a sequence of UTF-16 code units. *)
Definition jsstring := list N.

Definition of_ascii_string (s : string) : jsstring :=
  N_of_ascii <$> list_ascii_of_string s.

(** White space and line terminators: what [trim] strips and [\s] matches. *)
Definition isWhiteSpace (c : N) : bool :=
  ((9 <=? c) && (c <=? 13) || (c =? 32) || (c =? 160) || (c =? 5760)
   || (8192 <=? c) && (c <=? 8202) || (c =? 8232) || (c =? 8233) || (c =? 8239)
   || (c =? 8287) || (c =? 12288) || (c =? 65279))%N.

Fixpoint trimStart (s : jsstring) : jsstring :=
  match s with
  | c :: s' => if isWhiteSpace c then trimStart s' else s
  | [] => []
  end.

Definition trimEnd (s : jsstring) : jsstring := reverse (trimStart (reverse s)).

Definition trim (s : jsstring) : jsstring := trimEnd (trimStart s).

(** Regular expressions over code units, matched with derivatives. *)
Inductive regex :=
| Nothing
| Eps
| Class (accepts : N -> bool)
| Seq (r1 r2 : regex)
| Alt (r1 r2 : regex)
| Star (r : regex).

Fixpoint nullable (r : regex) : bool :=
  match r with
  | Nothing => false
  | Eps => true
  | Class _ => false
  | Seq r1 r2 => nullable r1 && nullable r2
  | Alt r1 r2 => nullable r1 || nullable r2
  | Star _ => true
  end.

Fixpoint derive (c : N) (r : regex) : regex :=
  match r with
  | Nothing | Eps => Nothing
  | Class accepts => if accepts c then Eps else Nothing
  | Seq r1 r2 =>
      if nullable r1
      then Alt (Seq (derive c r1) r2) (derive c r2)
      else Seq (derive c r1) r2
  | Alt r1 r2 => Alt (derive c r1) (derive c r2)
  | Star r' => Seq (derive c r') (Star r')
  end.

(** [/^r$/.test(s)] *)
Definition test (r : regex) (s : jsstring) : bool :=
  nullable (foldl (fun r c => derive c r) r s).

Definition Plus (r : regex) : regex := Seq r (Star r).
Definition Char (c : N) : regex := Class (N.eqb c).

(** [[^\s@]] *)
Definition not_space_at : regex :=
  Class (fun c => negb (isWhiteSpace c || (c =? 64)%N)).

(** [/^[^\s@]+@[^\s@]+\.[^\s@]+$/] *)
Definition emailRegex : regex :=
  Seq (Plus not_space_at)
    (Seq (Char 64) (Seq (Plus not_space_at) (Seq (Char 46) (Plus not_space_at)))).

Inductive field := name | email | subject | message.

(** [!value.trim()] *)
Definition blank (value : jsstring) : bool :=
  match trim value with [] => true | _ => false end.

Definition validateField (f : field) (value : jsstring) : option string :=
  match f with
  | name =>
      if blank value then Some "Le nom est requis"
      else if (length (trim value) <? 2)%nat
           then Some "Le nom doit contenir au moins 2 caractères"
           else None
  | email =>
      if blank value then Some "L'email est requis"
      else if negb (test emailRegex value) then Some "Format d'email invalide"
           else None
  | subject =>
      if blank value then Some "Le sujet est requis"
      else if (length (trim value) <? 5)%nat
           then Some "Le sujet doit contenir au moins 5 caractères"
           else None
  | message =>
      if blank value then Some "Le message est requis"
      else if (length (trim value) <? 10)%nat
           then Some "Le message doit contenir au moins 10 caractères"
           else if (1000 <? length (trim value))%nat
                then Some "Le message ne peut pas dépasser 1000 caractères"
                else None
  end.

End ContactForm.

(** ** A session of the toast queue

    What can happen to the queue between module load and the end of the
    session: the three actions of [toastStore] and the expiry of a pending
    timer, which runs its [dismiss]. *)

Inductive ToastCall :=
| Add (options : ToastOptions.t)
| Dismiss (id : string)
| Clear
| Expire (n : nat).

(** The [n]-th pending timer fires: it leaves the timer list and its
    callback runs. *)
Definition expire (n : nat) : Action unit := fun w =>
  match timers w !! n with
  | Some timer =>
      toastStore.dismiss (dismisses timer)
        (mkWorld (projects w) (projectsLoading w) (toasts w) (delete n (timers w))
           (entropy w) (draws w))
  | None => (tt, w)
  end.

(** One call; the result lists the id the call returned, if it was an [add]. *)
Definition call (c : ToastCall) : Action (list string) :=
  match c with
  | Add options => id ← toastStore.add options; mret [id]
  | Dismiss id => toastStore.dismiss id ;; mret []
  | Clear => toastStore.clear ;; mret []
  | Expire n => expire n ;; mret []
  end.

(** A sequence of calls; the result lists the ids the [add] calls returned,
    in order. *)
Fixpoint session (calls : list ToastCall) : Action (list string) :=
  match calls with
  | [] => mret []
  | c :: calls' => ids ← call c; ids' ← session calls'; mret (ids ++ ids')
  end.

(** The ids of the toasts in the queue. *)
Definition queued_ids (w : World) : list string := Toast.id <$> toasts w.

(** ** Outcomes of a store action *)

(** What [response.success && response.data] lets through: the data of a
    call that succeeded. Objects and arrays are truthy. *)
Definition succeeded {T} (settled : Settled T) : option T :=
  match settled with
  | Resolved response =>
      if ApiResponse.success response then ApiResponse.data response else None
  | Rejected _ => None
  end.

(** A failed call as the specification describes it: the API result says
    [success = false], or the transport threw. *)
Definition failed {T} (settled : Settled T) : Prop :=
  match settled with
  | Resolved response => ApiResponse.success response = false
  | Rejected _ => True
  end.

(** The order the specification claims inside a group: level descending, ties
    by name in case-sensitive lexicographic order. *)
Definition claimed_order (a b : Skill.t) : Prop :=
  Skill.level b < Skill.level a
  ∨ (Skill.level a = Skill.level b ∧ lexicographic_le (Skill.name a) (Skill.name b)).

(** The order the code establishes inside a group, for the collation
    [localeCompare]. *)
Definition group_order (localeCompare : string -> string -> Z) (a b : Skill.t) : Prop :=
  Skill.level b < Skill.level a
  ∨ (Skill.level a = Skill.level b ∧ localeCompare (Skill.name a) (Skill.name b) <= 0).

(** The id the next [add] is going to return, and the toast it is going to
    queue. *)
Definition next_id (w : World) : string := substr 2 9 (entropy w (draws w)).

Definition next_toast (options : ToastOptions.t) (w : World) : Toast.t :=
  Toast.mk (next_id w)
    (default ToastType.info (ToastOptions.type options))
    (ToastOptions.title options)
    (ToastOptions.message options)
    (or_number (ToastOptions.duration options) 5000)
    (match ToastOptions.dismissible options with Some false => false | _ => true end).

(** [options] with its [duration] left out. *)
Definition without_duration (options : ToastOptions.t) : ToastOptions.t :=
  ToastOptions.mk (ToastOptions.type options) (ToastOptions.title options)
    (ToastOptions.message options) None (ToastOptions.dismissible options).

(** ** More of the state layer *)

(** *** The category lists ([projectCategories], [skillCategories]) *)







(** [loadProject]: the store is not touched, the result is the data or [null]. *)
Definition loadProject (settled : Settled Project.t) : option Project.t :=
  match settled with
  | Resolved response =>
      match ApiResponse.success response, ApiResponse.data response with
      | true, Some data => Some data
      | _, _ => None
      end
  | Rejected _ => None
  end.

(** *** The skills store ([stores/skills.ts])

    It has its own two stores and uses neither the toast store nor the
    logger. *)

Record SkillsState := mkSkillsState {
  skills : list Skill.t;
  skillsLoading : LoadingState.t
}.

Module skillsStore.

Definition loadSkills_begin (s : SkillsState) : SkillsState :=
  mkSkillsState (skills s) (LoadingState.mk true None).

Definition loadSkills_settle (settled : Settled (list Skill.t)) (s : SkillsState)
  : SkillsState :=
  match settled with
  | Resolved response =>
      match ApiResponse.success response, ApiResponse.data response with
      | true, Some data =>
          mkSkillsState data (LoadingState.mk false (LoadingState.error (skillsLoading s)))
      | _, _ =>
          mkSkillsState (skills s)
            (LoadingState.mk false
               (Some (default (ApiError.mk "UNKNOWN_ERROR" "Unknown error occurred" None)
                              (ApiResponse.error response))))
      end
  | Rejected _ =>
      mkSkillsState (skills s)
        (LoadingState.mk false
           (Some (ApiError.mk "NETWORK_ERROR" "Failed to load skills" None)))
  end.

Definition loadSkills (settled : Settled (list Skill.t)) (s : SkillsState) : SkillsState :=
  loadSkills_settle settled (loadSkills_begin s).

Definition createSkill (settled : Settled Skill.t) (s : SkillsState) : bool * SkillsState :=
  match succeeded settled with
  | Some data => (true, mkSkillsState (skills s ++ [data]) (skillsLoading s))
  | None => (false, s)
  end.

Definition updateSkill (id : Z) (settled : Settled Skill.t) (s : SkillsState)
  : bool * SkillsState :=
  match succeeded settled with
  | Some data =>
      (true,
       mkSkillsState
         (map (fun skill => if Skill.id skill =? id then data else skill) (skills s))
         (skillsLoading s))
  | None => (false, s)
  end.

Definition deleteSkill (id : Z) (settled : Settled unit) (s : SkillsState)
  : bool * SkillsState :=
  match settled with
  | Resolved response =>
      if ApiResponse.success response
      then (true,
            mkSkillsState (filter (fun skill => Skill.id skill ≠ id) (skills s))
              (skillsLoading s))
      else (false, s)
  | Rejected _ => (false, s)
  end.

Definition clearError (s : SkillsState) : SkillsState :=
  mkSkillsState (skills s)
    (LoadingState.mk (LoadingState.isLoading (skillsLoading s)) None).

End skillsStore.

(** *** The contact store ([stores/contact.ts]) *)

Record ContactWorld := mkContactWorld {
  contactLoading : LoadingState.t;
  contactSuccess : bool;
  app : World
}.

Module contactStore.

(** Runs an action of the toast store in the world of the contact store. *)
Definition in_app {A} (action : Action A) (c : ContactWorld) : ContactWorld :=
  mkContactWorld (contactLoading c) (contactSuccess c) (exec action (app c)).

(** The part of [sendMessage] before the await. *)
Definition sendMessage_begin (c : ContactWorld) : ContactWorld :=
  mkContactWorld (LoadingState.mk true None) false (app c).

(** The part of [sendMessage] after the await. Success is [response.success]
    alone: the call carries no data. *)
Definition sendMessage_settle (settled : Settled unit) (c : ContactWorld)
  : bool * ContactWorld :=
  match settled with
  | Resolved response =>
      if ApiResponse.success response then
        (true,
         in_app (toastStore.success "Message envoyé"
                   (Some "Votre message a été envoyé avec succès. Je vous répondrai bientôt !")
                   None)
           (mkContactWorld
              (LoadingState.mk false (LoadingState.error (contactLoading c))) true (app c)))
      else
        let errorMsg :=
          or_string (projectsStore.error_message response)
            "Erreur lors de l'envoi du message" in
        (false,
         in_app (toastStore.error "Erreur d'envoi" (Some errorMsg) None)
           (mkContactWorld
              (LoadingState.mk false
                 (Some (default (ApiError.mk "UNKNOWN_ERROR" errorMsg None)
                                (ApiResponse.error response))))
              (contactSuccess c) (app c)))
  | Rejected _ =>
      let errorMsg := "Impossible de se connecter au serveur" in
      (false,
       in_app (toastStore.error "Erreur réseau" (Some errorMsg) None)
         (mkContactWorld
            (LoadingState.mk false (Some (ApiError.mk "NETWORK_ERROR" errorMsg None)))
            (contactSuccess c) (app c)))
  end.

Definition sendMessage (settled : Settled unit) (c : ContactWorld) : bool * ContactWorld :=
  sendMessage_settle settled (sendMessage_begin c).

Definition clearError (c : ContactWorld) : ContactWorld :=
  mkContactWorld (LoadingState.mk (LoadingState.isLoading (contactLoading c)) None)
    (contactSuccess c) (app c).

Definition clearSuccess (c : ContactWorld) : ContactWorld :=
  mkContactWorld (contactLoading c) false (app c).

Definition reset (c : ContactWorld) : ContactWorld :=
  mkContactWorld (LoadingState.mk false None) false (app c).

End contactStore.

(** *** The contact form component ([ContactForm.svelte])

    The component keeps the values of the four fields, the error of each
    field and which fields were touched; [formData], [errors] and [touched]
    are objects indexed by the field. *)

#[global] Instance field_eq_dec : EqDecision ContactForm.field.
Proof. solve_decision. Defined.

Record FormState := mkFormState {
  formData : ContactForm.field -> ContactForm.jsstring;
  errors : ContactForm.field -> option string;
  touched : ContactForm.field -> bool
}.

(** [obj[field] = v] *)
Definition set_field {A} (f : ContactForm.field) (v : A) (obj : ContactForm.field -> A)
  : ContactForm.field -> A :=
  fun g => if decide (g = f) then v else obj g.

(** [if (error) errors[field] = error; else delete errors[field]]: an error
    is kept when it is truthy. *)
Definition keep_error (error : option string) : option string :=
  match error with
  | Some EmptyString => None
  | _ => error
  end.

(** [Object.keys(formData)] *)
Definition form_keys : list ContactForm.field :=
  [ContactForm.name; ContactForm.email; ContactForm.subject; ContactForm.message].

Definition initial_form : FormState :=
  mkFormState (fun _ => []) (fun _ => None) (fun _ => false).

Definition handleBlur (f : ContactForm.field) (s : FormState) : FormState :=
  mkFormState (formData s)
    (set_field f (keep_error (ContactForm.validateField f (formData s f))) (errors s))
    (set_field f true (touched s)).

Definition handleInput (f : ContactForm.field) (value : ContactForm.jsstring) (s : FormState)
  : FormState :=
  let formData' := set_field f value (formData s) in
  if touched s f
  then mkFormState formData'
         (set_field f (keep_error (ContactForm.validateField f value)) (errors s))
         (touched s)
  else mkFormState formData' (errors s) (touched s).

(** [validateForm]: the errors are replaced by those of the four fields; the
    result says whether there is none. *)
Definition validateForm (s : FormState) : bool * FormState :=
  let newErrors :=
    foldl (fun acc key =>
             match keep_error (ContactForm.validateField key (formData s key)) with
             | Some error => set_field key (Some error) acc
             | None => acc
             end)
          (fun _ => None) form_keys in
  (forallb (fun key => bool_decide (newErrors key = None)) form_keys,
   mkFormState (formData s) newErrors (touched s)).

(** [handleSubmit] up to its await: the message handed to
    [contactStore.sendMessage], if one is sent. *)
Definition handleSubmit_begin (s : FormState)
  : option (ContactForm.field -> ContactForm.jsstring) * FormState :=
  let s1 :=
    mkFormState (formData s) (errors s)
      (foldl (fun acc key => set_field key true acc) (touched s) form_keys) in
  let (valid, s2) := validateForm s1 in
  if valid then (Some (formData s2), s2) else (None, s2).

(** [handleSubmit] after the await; [sent] is what [sendMessage] returned. *)
Definition handleSubmit_settle (sent : bool) (s : FormState) : FormState :=
  if sent then mkFormState (fun _ => []) (fun _ => None) (fun _ => false) else s.

(** What can happen to the form: the user leaves a field, types into a
    field or submits, and a [sendMessage] started by a submit settles ([sent]
    is what it returned), possibly after other events. *)
Inductive FormEvent :=
| Blur (f : ContactForm.field)
| Input (f : ContactForm.field) (value : ContactForm.jsstring)
| Submit
| Settle (sent : bool).

Definition form_step (s : FormState) (e : FormEvent) : FormState :=
  match e with
  | Blur f => handleBlur f s
  | Input f value => handleInput f value s
  | Submit => snd (handleSubmit_begin s)
  | Settle sent => handleSubmit_settle sent s
  end.

(** *** The skill badge ([SkillBadge.svelte]) *)

Definition level_colors : list string :=
  ["bg-red-100 text-red-800 ring-red-600/20";
   "bg-yellow-100 text-yellow-800 ring-yellow-600/20";
   "bg-blue-100 text-blue-800 ring-blue-600/20";
   "bg-green-100 text-green-800 ring-green-600/20";
   "bg-purple-100 text-purple-800 ring-purple-600/20"].

(** [colors[level - 1] || colors[0]] *)
Definition getSkillLevelColor (level : Z) : string :=
  or_string (index level_colors (level - 1))
    (default EmptyString (index level_colors 0)).

(** [Array.from({ length: 5 }, (_, i) => i < level ? 'filled' : 'empty')] *)
Definition getLevelIndicators (level : Z) : list string :=
  (fun i : nat => if Z.of_nat i <? level then "filled" else "empty") <$> seq 0 5.

(** *** The endpoints of the API client ([api/client.ts])

    A string is kept as its UTF-8 bytes, which is what both encoders work
    on. *)

Definition hex_digit (n : N) : ascii :=
  default "0"%char (list_ascii_of_string "0123456789ABCDEF" !! N.to_nat n).

(** [%XX] *)
Definition percent_encode (c : ascii) : list ascii :=
  ["%"%char; hex_digit (N_of_ascii c / 16); hex_digit (N_of_ascii c mod 16)].

Definition is_alphanumeric (c : ascii) : bool :=
  let n := N_of_ascii c in
  ((48 <=? n) && (n <=? 57) || (65 <=? n) && (n <=? 90) || (97 <=? n) && (n <=? 122))%N.

Definition one_of (chars : string) (c : ascii) : bool :=
  bool_decide (c ∈ list_ascii_of_string chars).

(** The serializer of [URLSearchParams]: letters, digits and [*-._] stay, a
    space becomes [+], every other byte is percent-encoded. *)
Definition form_urlencode (s : string) : string :=
  string_of_list_ascii
    (list_ascii_of_string s ≫= fun c =>
       if is_alphanumeric c || one_of "*-._" c then [c]
       else if Ascii.eqb c " " then ["+"%char]
       else percent_encode c).

(** [encodeURIComponent]: letters, digits and [-_.!~*'()] stay, every other
    byte is percent-encoded. *)
Definition encodeURIComponent (s : string) : string :=
  string_of_list_ascii
    (list_ascii_of_string s ≫= fun c =>
       if is_alphanumeric c || one_of "-_.!~*'()" c then [c]
       else percent_encode c).

(** [params.toString()] *)
Fixpoint URLSearchParams_toString (params : list (string * string)) : string :=
  match params with
  | [] => EmptyString
  | [(name, value)] => form_urlencode name +:+ "=" +:+ form_urlencode value
  | (name, value) :: rest =>
      form_urlencode name +:+ "=" +:+ form_urlencode value +:+ "&"
      +:+ URLSearchParams_toString rest
  end.

(** The endpoint [getProjects(category, featured)] requests. *)
Definition getProjects_endpoint (category : option string) (featured : option bool)
  : string :=
  let params :=
    match category with
    | Some EmptyString | None => []
    | Some c => [("category", c)]
    end
    ++ match featured with
       | Some b => [("featured", if b then "true" else "false")]
       | None => []
       end in
  match URLSearchParams_toString params with
  | EmptyString => "/api/projects"
  | query => "/api/projects" +:+ "?" +:+ query
  end.

(** The endpoint [getSkills(category)] requests. *)
Definition getSkills_endpoint (category : option string) : string :=
  match category with
  | Some EmptyString | None => "/api/skills"
  | Some c => "/api/skills" +:+ "?category=" +:+ encodeURIComponent c
  end.

(** *** The project grid ([ProjectGrid.svelte]) *)

(** [haystack.includes(needle)] *)
Fixpoint starts_with (needle haystack : list ascii) : bool :=
  match needle, haystack with
  | [], _ => true
  | _ :: _, [] => false
  | a :: needle', b :: haystack' => Ascii.eqb a b && starts_with needle' haystack'
  end.

Fixpoint includes_list (haystack needle : list ascii) : bool :=
  starts_with needle haystack
  || match haystack with
     | [] => false
     | _ :: haystack' => includes_list haystack' needle
     end.

Definition includes (haystack needle : string) : bool :=
  includes_list (list_ascii_of_string haystack) (list_ascii_of_string needle).

Section ProjectGrid.

(** [s.toLowerCase()] and [new Date(s).getTime()] are the host's; the dates
    of the projects are taken to be valid, so that [getTime] is a number. *)
Variable toLowerCase : string -> string.
Variable getTime : string -> Z.

Definition matches_filters (selectedCategory searchQuery : string) (project : Project.t)
  : bool :=
  let matchesCategory :=
    bool_decide (selectedCategory = "all")
    || bool_decide (Project.category project = selectedCategory) in
  let matchesSearch :=
    bool_decide (searchQuery = EmptyString)
    || includes (toLowerCase (Project.title project)) (toLowerCase searchQuery)
    || includes (toLowerCase (Project.description project)) (toLowerCase searchQuery)
    || existsb (fun tech => includes (toLowerCase tech) (toLowerCase searchQuery))
         (Project.technologies project) in
  matchesCategory && matchesSearch.

Definition filteredProjects (selectedCategory searchQuery : string)
    (collection : list Project.t) : list Project.t :=
  filter (fun project => matches_filters selectedCategory searchQuery project = true)
    collection.

(** The comparators of [sortedProjects]. *)
Definition newest_first (a b : Project.t) : Z :=
  getTime (Project.created_at b) - getTime (Project.created_at a).

Definition featured_first (a b : Project.t) : Z :=
  if Project.featured a && negb (Project.featured b) then -1
  else if negb (Project.featured a) && Project.featured b then 1
  else newest_first a b.

Definition sortedProjects (showFeaturedFirst : bool) (filtered : list Project.t)
  : list Project.t :=
  if showFeaturedFirst then sort_by featured_first filtered
  else sort_by newest_first filtered.

End ProjectGrid.

Definition getCategoryCount (collection : list Project.t) (category : string) : nat :=
  if bool_decide (category = "all") then length collection
  else length (filter (fun p => Project.category p = category) collection).

(** *** The error logger ([utils/errorLogger.ts])

    An error handed to the logger is any value; the logger looks at four
    things of it, which is what [Thrown] records: [error?.message],
    [error?.reason?.message], [error?.stack] and [String(error)] (messages
    that are not strings are left out). The clock, the user agent and the
    address are the host's. Writing to the console is not modelled. *)

Module errorLogger.

Inductive Level := error | warning | info | debug.

#[global] Instance Level_eq_dec : EqDecision Level.
Proof. solve_decision. Defined.

Record ErrorContext := mkContext {
  component : option string;
  action : option string;
  userId : option string;
  context_timestamp : option Z;
  userAgent : option string;
  url : option string
}.

Record LoggedError := mkLogged {
  message : string;
  stack : option string;
  context : ErrorContext;
  level : Level;
  timestamp : Z
}.

Record Thrown := mkThrown {
  thrown_message : option string;
  reason_message : option string;
  thrown_stack : option string;
  as_string : string
}.

(** What the host answers during one call: the two readings of the clock,
    [navigator.userAgent] and [window.location.href] (or ['unknown']). *)
Record Host := mkHost {
  first_now : Z;
  second_now : Z;
  navigator_userAgent : string;
  location_href : string
}.

Definition maxLogs : nat := 100.

Definition ignoredPatterns : list string :=
  ["Failed to initialize messaging"; "tx_attempts_exceeded"; "tx_ack_timeout";
   "host-additional-hooks"; "getSingleton"; "connect"; "kiro-ide"; "chrome-extension"].

(** [this.logs.push(entry)] followed by the cut to the last [maxLogs]. *)
Definition push (entry : LoggedError) (logs : list LoggedError) : list LoggedError :=
  let logs' := logs ++ [entry] in
  if (maxLogs <? length logs')%nat then drop (length logs' - maxLogs) logs' else logs'.

(** [{...context, ...}] with an absent context *)
Definition no_context : ErrorContext := mkContext None None None None None None.

Section logger.

Variable toLowerCase : string -> string.

Definition shouldIgnoreError (e : Thrown) : bool :=
  let errorMessage :=
    or_string (thrown_message e) (or_string (reason_message e) (as_string e)) in
  existsb (fun pattern => includes (toLowerCase errorMessage) (toLowerCase pattern))
    ignoredPatterns.

Definition logError (host : Host) (e : Thrown) (ctx : option ErrorContext)
    (logs : list LoggedError) : list LoggedError :=
  if shouldIgnoreError e then logs
  else
    let given := default no_context ctx in
    push (mkLogged (or_string (thrown_message e) (as_string e)) (thrown_stack e)
            (mkContext (component given) (action given) (userId given)
               (Some (first_now host)) (Some (navigator_userAgent host))
               (Some (location_href host)))
            error (second_now host))
      logs.

Definition logApiError (host : Host) (e : Thrown) (endpoint : string)
    (logs : list LoggedError) : list LoggedError :=
  logError host e
    (Some (mkContext (Some "API") (Some ("Request to " +:+ endpoint)) None None None None))
    logs.

Definition logComponentError (host : Host) (e : Thrown) (component : string)
    (action : option string) (logs : list LoggedError) : list LoggedError :=
  logError host e (Some (mkContext (Some component) action None None None None)) logs.

End logger.

Definition logWarning (host : Host) (message : string) (ctx : option ErrorContext)
    (logs : list LoggedError) : list LoggedError :=
  let given := default no_context ctx in
  push (mkLogged message None
          (mkContext (component given) (action given) (userId given)
             (Some (first_now host)) (userAgent given) (Some (location_href host)))
          warning (second_now host))
    logs.

Definition logInfo (host : Host) (message : string) (ctx : option ErrorContext)
    (logs : list LoggedError) : list LoggedError :=
  let given := default no_context ctx in
  push (mkLogged message None
          (mkContext (component given) (action given) (userId given)
             (Some (first_now host)) (userAgent given) (Some (location_href host)))
          info (second_now host))
    logs.

Definition logUserAction (host : Host) (action : string) (component : option string)
    (logs : list LoggedError) : list LoggedError :=
  logInfo host ("User action: " +:+ action)
    (Some (mkContext component (Some action) None None None None)) logs.

Definition getLogsByLevel (l : Level) (logs : list LoggedError) : list LoggedError :=
  filter (fun log => level log = l) logs.

Definition clearLogs (logs : list LoggedError) : list LoggedError := [].

Record Stats := mkStats {
  total : nat;
  errors : nat;
  warnings : nat;
  infos : nat;
  debugs : nat;
  recent : nat
}.

(** [getStats]; [now] is [Date.now()]. *)
Definition getStats (now : Z) (logs : list LoggedError) : Stats :=
  let oneHourAgo := now - 60 * 60 * 1000 in
  mkStats (length logs)
    (length (filter (fun log => level log = error) logs))
    (length (filter (fun log => level log = warning) logs))
    (length (filter (fun log => level log = info) logs))
    (length (filter (fun log => level log = debug) logs))
    (length (filter (fun log => oneHourAgo < timestamp log) logs)).

(** One call of the logger. *)
Inductive Call :=
| LogError (host : Host) (e : Thrown) (ctx : option ErrorContext)
| LogWarning (host : Host) (message : string) (ctx : option ErrorContext)
| LogInfo (host : Host) (message : string) (ctx : option ErrorContext)
| ClearLogs.

Definition run (toLowerCase : string -> string) (logs : list LoggedError) (c : Call)
  : list LoggedError :=
  match c with
  | LogError host e ctx => logError toLowerCase host e ctx logs
  | LogWarning host message ctx => logWarning host message ctx logs
  | LogInfo host message ctx => logInfo host message ctx logs
  | ClearLogs => clearLogs logs
  end.

End errorLogger.

(** *** Invariants and specifications used below *)

(** Every queued toast with a positive duration has its removal pending. *)
Definition removal_pending (w : World) : Prop :=
  forall toast, toast ∈ toasts w -> 0 < Toast.duration toast ->
    mkTimer (Toast.duration toast) (Toast.id toast) ∈ timers w.

(** The identifiers of the projects in the store. *)
Definition project_ids (w : World) : list Z := Project.id <$> projects w.

(** What it means for a string to match a regular expression. *)
Inductive matches : ContactForm.regex -> ContactForm.jsstring -> Prop :=
| matches_eps : matches ContactForm.Eps []
| matches_class accepts c :
    accepts c = true -> matches (ContactForm.Class accepts) [c]
| matches_seq r1 r2 s1 s2 :
    matches r1 s1 -> matches r2 s2 -> matches (ContactForm.Seq r1 r2) (s1 ++ s2)
| matches_alt_l r1 r2 s : matches r1 s -> matches (ContactForm.Alt r1 r2) s
| matches_alt_r r1 r2 s : matches r2 s -> matches (ContactForm.Alt r1 r2) s
| matches_star_nil r : matches (ContactForm.Star r) []
| matches_star_cons r s1 s2 :
    matches r s1 -> matches (ContactForm.Star r) s2 ->
    matches (ContactForm.Star r) (s1 ++ s2).

(** A code unit that is neither white space nor [@]. *)
Definition plain (c : N) : Prop := ContactForm.isWhiteSpace c = false ∧ c ≠ 64%N.

(** [local@domain.tld], the three parts not empty and made of plain code
    units (the domain and the tld may contain dots). *)
Definition email_shape (value : ContactForm.jsstring) : Prop :=
  exists local domain tld,
    value = local ++ [64%N] ++ domain ++ [46%N] ++ tld
    ∧ local ≠ [] ∧ domain ≠ [] ∧ tld ≠ []
    ∧ Forall plain local ∧ Forall plain domain ∧ Forall plain tld.

(** The errors the form holds are those of the touched fields, for their
    current values. *)
Definition form_in_sync (s : FormState) : Prop :=
  forall f,
    errors s f
    = if touched s f then ContactForm.validateField f (formData s f) else None.

(** A character an encoder lets through or produces: a letter, a digit or
    one of [-_.!~*'()+%]. *)
Definition url_safe (c : ascii) : Prop :=
  is_alphanumeric c = true ∨ c ∈ list_ascii_of_string "-_.!~*'()+%".

(** The order of the grid when featured projects come first: a featured
    project before one that is not, and otherwise the newer one first. *)
Definition featured_order (getTime : string -> Z) (a b : Project.t) : Prop :=
  (Project.featured a = true ∧ Project.featured b = false)
  ∨ (Project.featured a = Project.featured b
     ∧ getTime (Project.created_at b) <= getTime (Project.created_at a)).

(** The projects of the grid's tests. *)
Definition mockProjects : list Project.t :=
  [Project.mk 1 "Portfolio Web" "Un portfolio moderne avec Rust et Svelte" None
     ["Rust"; "Svelte"; "TypeScript"] None None None "Web" true "2024-01-15T10:30:00Z";
   Project.mk 2 "API REST" "Une API REST performante en Rust" None
     ["Rust"; "Axum"; "SQLite"] None None None "Backend" false "2024-01-10T08:00:00Z";
   Project.mk 3 "App Mobile" "Application mobile cross-platform" None
     ["React Native"; "TypeScript"] None None None "Mobile" true "2024-01-20T14:15:00Z"].

(** ** Sample data *)

(** The world at module load, for a given sequence of random draws. *)
Definition initial_world (entropy : nat -> string) : World :=
  mkWorld [] (LoadingState.mk false None) [] [] entropy 0.

(** Two different draws that agree on their first nine digits after the
    point. *)
Definition colliding_draws (n : nat) : string :=
  match n with
  | O => "0.4fzyo82mvyr"
  | _ => "0.4fzyo82mv1c"
  end.

(** Draws that differ from each other within those nine digits. *)
Definition distinct_draws (n : nat) : string :=
  match n with
  | O => "0.4fzyo82mvyr"
  | 1%nat => "0.k1x9q0c7d2m"
  | _ => "0.z8r3tt5u0ab"
  end.

Definition saved_options (duration : option Z) : ToastOptions.t :=
  ToastOptions.mk None "Saved" None duration None.

(** Two skills of one category and one level, and the skills of the store's
    tests. *)
Definition skill_B : Skill.t := Skill.mk 1 "B" "Tools" 3 None None.
Definition skill_a : Skill.t := Skill.mk 2 "a" "Tools" 3 None None.

Definition mockSkills : list Skill.t :=
  [Skill.mk 1 "Rust" "Backend" 5 None None;
   Skill.mk 2 "Svelte" "Frontend" 4 None None;
   Skill.mk 3 "TypeScript" "Frontend" 5 None None].

(** Responses of the API client's tests, and a 200 response whose body is
    the empty object. *)
Definition not_found_response : ApiClient.Response :=
  ApiClient.mkResponse false 404 "Not Found"
    (Js.Normal (Js.Object
       [("success", Js.Boolean false);
        ("error", Js.Object [("code", Js.Str "NOT_FOUND");
                             ("message", Js.Str "Resource not found")])])).

Definition server_error_response : ApiClient.Response :=
  ApiClient.mkResponse false 500 "Internal Server Error" (Js.Normal (Js.Object [])).

Definition empty_body_response : ApiClient.Response :=
  ApiClient.mkResponse true 200 "OK" (Js.Normal (Js.Object [])).

(** * Properties *)

(** ** The toast queue *)

Ltac run_action :=
  unfold exec, eval, mbind, mret, Action_bind, Action_ret,
    toasts_update, toasts_set, projects_set, projects_update,
    projectsLoading_update, setTimeout, Math_random_toString36 in *;
  simpl in *.

Lemma add_run (options : ToastOptions.t) (w : World) :
  toastStore.add options w =
  (next_id w,
   mkWorld (projects w) (projectsLoading w) (toasts w ++ [next_toast options w])
     (timers w ++ (if 0 <? Toast.duration (next_toast options w)
                   then [mkTimer (Toast.duration (next_toast options w)) (next_id w)]
                   else []))
     (entropy w) (S (draws w))).
Proof.
  unfold toastStore.add. run_action.
  fold (next_id w). fold (next_toast options w).
  destruct (0 <? or_number (ToastOptions.duration options) 5000); simpl.
  - reflexivity.
  - by rewrite app_nil_r.
Qed.

Lemma dismiss_run (id : string) (w : World) :
  toastStore.dismiss id w =
  (tt, mkWorld (projects w) (projectsLoading w)
         (filter (fun toast => Toast.id toast ≠ id) (toasts w))
         (timers w) (entropy w) (draws w)).
Proof. reflexivity. Qed.

Lemma add_toasts (options : ToastOptions.t) (w : World) :
  toasts (exec (toastStore.add options) w) = toasts w ++ [next_toast options w].
Proof. unfold exec. by rewrite add_run. Qed.

Lemma session_cons (c : ToastCall) (calls : list ToastCall) (w : World) :
  eval (session (c :: calls)) w = eval (call c) w ++ eval (session calls) (exec (call c) w)
  ∧ exec (session (c :: calls)) w = exec (session calls) (exec (call c) w).
Proof.
  unfold eval, exec; simpl. unfold mbind, Action_bind.
  destruct (call c w) as [ids w1]; simpl.
  destruct (session calls w1) as [ids' w2]; simpl. done.
Qed.

Lemma filter_ids_sublist (id : string) (queue : list Toast.t) :
  Toast.id <$> filter (fun toast => Toast.id toast ≠ id) queue `sublist_of` Toast.id <$> queue.
Proof. apply fmap_sublist, sublist_filter. Qed.

(** Every call either is an [add], which returns the next id and queues it
    last, or returns nothing and leaves a sub-queue. *)
Lemma call_cases (c : ToastCall) (w : World) :
  (eval (call c) w = [next_id w]
   ∧ queued_ids (exec (call c) w) = queued_ids w ++ [next_id w])
  ∨ (eval (call c) w = []
     ∧ queued_ids (exec (call c) w) `sublist_of` queued_ids w).
Proof.
  destruct c as [options|id| |n]; unfold eval, exec, queued_ids; simpl;
    unfold mbind, Action_bind.
  - left. rewrite add_run; simpl. by rewrite fmap_app.
  - right. split; [done|]. simpl. apply filter_ids_sublist.
  - right. split; [done|]. simpl. apply sublist_nil_l.
  - right. unfold expire. destruct (timers w !! n) as [timer|]; simpl.
    + split; [done|]. apply filter_ids_sublist.
    + done.
Qed.

Lemma session_NoDup (calls : list ToastCall) :
  forall w : World,
    NoDup (queued_ids w) ->
    NoDup (eval (session calls) w) ->
    (forall id, id ∈ eval (session calls) w -> id ∉ queued_ids w) ->
    NoDup (queued_ids (exec (session calls) w)).
Proof.
  induction calls as [|c calls IH]; intros w Hq Hids Hfresh.
  - done.
  - destruct (session_cons c calls w) as [Heval Hexec].
    rewrite Hexec. rewrite Heval in Hids, Hfresh.
    apply NoDup_app in Hids as (_ & Hdisj & Hrest).
    destruct (call_cases c w) as [[Hret Hqueue]|[Hret Hqueue]].
    + rewrite Hret in Hdisj, Hfresh.
      apply IH; [|done|].
      * rewrite Hqueue. apply NoDup_app. split_and!; [done| |apply NoDup_singleton].
        intros id Hid Hnew. apply list_elem_of_singleton in Hnew. subst id.
        apply (Hfresh (next_id w)); [|done].
        apply elem_of_app. left. by apply list_elem_of_singleton.
      * intros id Hid. rewrite Hqueue. intros Hin.
        apply elem_of_app in Hin as [Hin|Hin].
        -- apply (Hfresh id); [|done]. apply elem_of_app. by right.
        -- apply list_elem_of_singleton in Hin. subst id.
           apply (Hdisj (next_id w)); [|done]. by apply list_elem_of_singleton.
    + rewrite Hret in Hfresh. simpl in Hfresh.
      apply IH; [exact (sublist_NoDup _ _ Hq Hqueue)|done|].
      intros id Hid Hin. apply (Hfresh id); [done|].
      exact (elem_of_sublist _ _ _ Hin Hqueue).
Qed.

Lemma dismiss_absent (id : string) (queue : list Toast.t) :
  id ∉ Toast.id <$> queue ->
  filter (fun toast => Toast.id toast ≠ id) queue = queue.
Proof.
  induction queue as [|toast queue IH]; intros Hnotin; [done|].
  rewrite fmap_cons in Hnotin. apply not_elem_of_cons in Hnotin as [Hne Hnotin].
  rewrite filter_cons_True by congruence. f_equal. by apply IH.
Qed.

Lemma dismiss_removes_one (id : string) (queue : list Toast.t) :
  NoDup (Toast.id <$> queue) ->
  id ∈ Toast.id <$> queue ->
  S (length (filter (fun toast => Toast.id toast ≠ id) queue)) = length queue.
Proof.
  induction queue as [|toast queue IH]; intros Hnd Hin.
  - by apply elem_of_nil in Hin.
  - rewrite fmap_cons in Hnd, Hin. apply NoDup_cons in Hnd as [Hnotin Hnd].
    destruct (decide (Toast.id toast = id)) as [Heq|Hne].
    + rewrite filter_cons_False by naive_solver. simpl. f_equal.
      subst id. by rewrite dismiss_absent.
    + rewrite filter_cons_True by done. simpl. f_equal. apply IH; [done|].
      apply elem_of_cons in Hin as [?|?]; [congruence|done].
Qed.

(** C8, as stated, fails: the id is nine base-36 digits of a random draw, and
    nothing stops two [add] calls from drawing the same digits. Here two
    different draws give both toasts the id [4fzyo82mv]; the queue then holds
    the id twice and one [dismiss] removes both entries. *)
Lemma toast_ids_collide :
  let w := exec (session [Add (saved_options None); Add (saved_options None)])
             (initial_world colliding_draws) in
  eval (session [Add (saved_options None); Add (saved_options None)])
    (initial_world colliding_draws) = ["4fzyo82mv"; "4fzyo82mv"]
  ∧ ¬ NoDup (queued_ids w)
  ∧ length (toasts w) = 2%nat
  ∧ length (toasts (exec (toastStore.dismiss "4fzyo82mv") w)) = 0%nat.
Proof.
  split_and!; try reflexivity.
  intros Hnd. vm_compute in Hnd.
  apply NoDup_cons in Hnd as [Hnotin _]. apply Hnotin. by left.
Qed.

(** C8, amended: [add] returns the id made of the characters 2..10 of the
    draw. [dismiss id] keeps exactly the entries with another id, changes
    nothing when [id] is not queued, and is a total function: it cannot
    throw. In a session that starts with an empty queue and whose [add] calls
    returned pairwise distinct ids, the queue has pairwise distinct ids, and
    [dismiss id] then removes exactly one entry when [id] is queued. *)
Theorem toast_queue_distinct_ids (calls : list ToastCall) (w : World) :
  let w' := exec (session calls) w in
  (forall options v, eval (toastStore.add options) v = substr 2 9 (entropy v (draws v)))
  ∧ (forall id v,
       toasts (exec (toastStore.dismiss id) v)
       = filter (fun toast => Toast.id toast ≠ id) (toasts v)
       ∧ (id ∉ queued_ids v -> toasts (exec (toastStore.dismiss id) v) = toasts v))
  ∧ (toasts w = [] ->
     NoDup (eval (session calls) w) ->
     NoDup (queued_ids w')
     ∧ forall id,
         id ∈ queued_ids w' ->
         S (length (toasts (exec (toastStore.dismiss id) w'))) = length (toasts w')).
Proof.
  intros w'. split_and!.
  - intros options v. unfold eval. by rewrite add_run.
  - intros id v. unfold exec. rewrite dismiss_run; simpl.
    split; [done|]. apply dismiss_absent.
  - intros Hempty Hids.
    assert (Hnd : NoDup (queued_ids w')).
    { apply session_NoDup; [|done|].
      - unfold queued_ids. rewrite Hempty. constructor.
      - intros id _. unfold queued_ids. rewrite Hempty. apply not_elem_of_nil. }
    split; [done|].
    intros id Hin. unfold exec. rewrite dismiss_run; simpl.
    by apply dismiss_removes_one.
Qed.

Lemma toast_queue_distinct_ids_witness :
  NoDup (queued_ids
           (exec (session [Add (saved_options None); Add (saved_options (Some 0));
                           Dismiss "k1x9q0c7d"; Add (saved_options None); Expire 0])
              (initial_world distinct_draws))).
Proof.
  destruct (toast_queue_distinct_ids
              [Add (saved_options None); Add (saved_options (Some 0));
               Dismiss "k1x9q0c7d"; Add (saved_options None); Expire 0]
              (initial_world distinct_draws)) as (_ & _ & Hsession).
  destruct Hsession as [Hnd _]; [reflexivity| |exact Hnd].
  apply (bool_decide_unpack _). by vm_compute.
Defined.

(** C10, as stated, fails: a negative duration is truthy, so it is stored as
    given, and the guard [toast.duration > 0] then schedules nothing: the
    toast never expires. *)
Lemma add_negative_duration_never_expires :
  let w := exec (toastStore.add (saved_options (Some (-1)))) (initial_world distinct_draws) in
  toasts w = [Toast.mk "4fzyo82mv" ToastType.info "Saved" None (-1) true]
  ∧ timers w = [].
Proof. split; reflexivity. Qed.

(** C10, amended: [add] cannot produce a non-expiring toast through a
    duration that is absent, zero or positive: removal is scheduled after the
    stored duration. When the duration is zero or absent the stored duration
    is the default 5000 ms, removal is scheduled after 5000 ms, and the call
    does exactly what the call without a duration does. A negative duration
    is stored as given and schedules nothing. *)
Theorem add_duration_default (options : ToastOptions.t) (w : World) :
  let w' := exec (toastStore.add options) w in
  let id := eval (toastStore.add options) w in
  toasts w' = toasts w ++ [next_toast options w]
  ∧ ((forall d, ToastOptions.duration options = Some d -> 0 <= d) ->
     0 < Toast.duration (next_toast options w)
     ∧ timers w' = timers w ++ [mkTimer (Toast.duration (next_toast options w)) id])
  ∧ (ToastOptions.duration options = None ∨ ToastOptions.duration options = Some 0 ->
     Toast.duration (next_toast options w) = 5000
     ∧ timers w' = timers w ++ [mkTimer 5000 id]
     ∧ toastStore.add options w = toastStore.add (without_duration options) w)
  ∧ (forall d, ToastOptions.duration options = Some d -> d < 0 ->
     Toast.duration (next_toast options w) = d ∧ timers w' = timers w).
Proof.
  intros w' id. subst w' id.
  split_and!; [by rewrite add_toasts| | |].
  - intros Hnonneg.
    assert (Hpos : 0 < Toast.duration (next_toast options w)).
    { simpl. unfold or_number. destruct (ToastOptions.duration options) as [d|]; [|lia].
      specialize (Hnonneg d eq_refl). destruct (d =? 0) eqn:E; lia. }
    split; [done|].
    unfold exec, eval. rewrite add_run. cbn [fst snd timers].
    apply Z.ltb_lt in Hpos. by rewrite Hpos.
  - intros Hfalsy.
    assert (Hsame : next_toast options w = next_toast (without_duration options) w).
    { unfold next_toast, without_duration; simpl.
      destruct Hfalsy as [->| ->]; reflexivity. }
    assert (Hdefault : Toast.duration (next_toast options w) = 5000).
    { simpl. unfold or_number. by destruct Hfalsy as [->| ->]. }
    split_and!; [done| |by rewrite !add_run, Hsame].
    unfold exec, eval. rewrite add_run. cbn [fst snd timers]. by rewrite Hdefault.
  - intros d Hd Hneg.
    assert (Hstored : Toast.duration (next_toast options w) = d).
    { simpl. unfold or_number. rewrite Hd. destruct (Z.eqb_spec d 0); [lia|done]. }
    split; [done|].
    unfold exec. rewrite add_run. cbn [snd timers]. rewrite Hstored.
    destruct (Z.ltb_spec 0 d); [lia|]. by rewrite app_nil_r.
Qed.

Lemma add_duration_default_witness :
  Toast.duration (next_toast (saved_options (Some 0)) (initial_world distinct_draws)) = 5000
  ∧ timers (exec (toastStore.add (saved_options (Some 0))) (initial_world distinct_draws))
    = [mkTimer 5000 "4fzyo82mv"]
  ∧ toastStore.add (saved_options (Some 0)) (initial_world distinct_draws)
    = toastStore.add (saved_options None) (initial_world distinct_draws)
  ∧ timers (exec (toastStore.add (saved_options (Some 3000))) (initial_world distinct_draws))
    = [mkTimer 3000 "4fzyo82mv"].
Proof.
  destruct (add_duration_default (saved_options (Some 0)) (initial_world distinct_draws))
    as (_ & _ & Hdefault & _).
  destruct Hdefault as (Hduration & Htimers & Hsame); [by right|].
  destruct (add_duration_default (saved_options (Some 3000)) (initial_world distinct_draws))
    as (_ & Hscheduled & _).
  destruct Hscheduled as [_ Htimers']; [intros d [= <-]; lia|].
  split_and!; [exact Hduration|exact Htimers|exact Hsame|exact Htimers'].
Defined.

(** ** The projects store *)

Lemma error_toast_run (title : string) (message : option string) (w : World) :
  exists toast,
    Toast.type toast = ToastType.error
    ∧ toastStore.error title message None w
      = (next_id w,
         mkWorld (projects w) (projectsLoading w) (toasts w ++ [toast])
           (timers w ++ [mkTimer 8000 (next_id w)]) (entropy w) (S (draws w))).
Proof.
  eexists. split; [|unfold toastStore.error; rewrite add_run; reflexivity].
  reflexivity.
Qed.

Lemma success_toast_run (title : string) (message : option string) (w : World) :
  exists toast,
    Toast.type toast = ToastType.success
    ∧ toastStore.success title message None w
      = (next_id w,
         mkWorld (projects w) (projectsLoading w) (toasts w ++ [toast])
           (timers w ++ [mkTimer 5000 (next_id w)]) (entropy w) (S (draws w))).
Proof.
  eexists. split; [|unfold toastStore.success; rewrite add_run; reflexivity].
  reflexivity.
Qed.

(** What the part of [loadProjects] after the await does when the call did
    not succeed, whatever the world has become in the meantime. *)
Lemma loadProjects_settle_failure (settled : Settled (list Project.t)) (w : World) :
  succeeded settled = None ->
  exists e toast,
    Toast.type toast = ToastType.error
    ∧ exec (projectsStore.loadProjects_settle settled) w
      = mkWorld (projects w) (LoadingState.mk false (Some e)) (toasts w ++ [toast])
          (timers w ++ [mkTimer 8000 (next_id w)]) (entropy w) (S (draws w))
    ∧ forall response e',
        settled = Resolved response -> ApiResponse.error response = Some e' -> e = e'.
Proof.
  intros Hfailed.
  destruct settled as [response|reason]; simpl in *.
  - set (errorMsg := or_string (projectsStore.error_message response)
                       "Erreur lors du chargement des projets").
    destruct (error_toast_run "Erreur de chargement" (Some errorMsg)
                (mkWorld (projects w)
                   (LoadingState.mk false
                      (Some (default (ApiError.mk "UNKNOWN_ERROR" errorMsg None)
                                     (ApiResponse.error response))))
                   (toasts w) (timers w) (entropy w) (draws w)))
      as (toast & Htype & Hrun).
    exists (default (ApiError.mk "UNKNOWN_ERROR" errorMsg None) (ApiResponse.error response)),
      toast.
    split_and!; [done| |].
    + destruct (ApiResponse.success response), (ApiResponse.data response);
        try discriminate Hfailed;
        unfold exec, mbind, Action_bind, projectsLoading_update; fold errorMsg;
        by rewrite Hrun.
    + intros response' e' [= <-] ->. reflexivity.
  - set (errorMsg := "Impossible de se connecter au serveur").
    destruct (error_toast_run "Erreur réseau" (Some errorMsg)
                (mkWorld (projects w)
                   (LoadingState.mk false (Some (ApiError.mk "NETWORK_ERROR" errorMsg None)))
                   (toasts w) (timers w) (entropy w) (draws w)))
      as (toast & Htype & Hrun).
    exists (ApiError.mk "NETWORK_ERROR" errorMsg None), toast.
    split_and!; [done| |done].
    unfold exec, mbind, Action_bind, projectsLoading_update. by rewrite Hrun.
Qed.

Lemma failed_not_succeeded {T} (settled : Settled T) :
  failed settled -> succeeded settled = None.
Proof. destruct settled as [response|reason]; simpl; [by intros ->|done]. Qed.

(** C1: after a failed [loadProjects] the collection is what it was, the
    error of the loading state is set (to the error object of the server when
    there is one), [isLoading] is false, and the queue has grown by exactly
    one toast, of type error. *)
Theorem loadProjects_failure (settled : Settled (list Project.t)) (w : World) :
  failed settled ->
  let w' := exec (projectsStore.loadProjects settled) w in
  projects w' = projects w
  ∧ LoadingState.error (projectsLoading w') ≠ None
  ∧ (forall response e,
       settled = Resolved response -> ApiResponse.error response = Some e ->
       LoadingState.error (projectsLoading w') = Some e)
  ∧ LoadingState.isLoading (projectsLoading w') = false
  ∧ exists toast,
      toasts w' = toasts w ++ [toast] ∧ Toast.type toast = ToastType.error.
Proof.
  intros Hfailed%failed_not_succeeded w'.
  destruct (loadProjects_settle_failure settled
              (exec projectsStore.loadProjects_begin w) Hfailed)
    as (e & toast & Htype & Hrun & Herror).
  assert (Hw' : w' = exec (projectsStore.loadProjects_settle settled)
                       (exec projectsStore.loadProjects_begin w)).
  { subst w'. unfold projectsStore.loadProjects, exec, mbind, Action_bind.
    by destruct (projectsStore.loadProjects_begin w). }
  rewrite Hw', Hrun; simpl.
  split_and!; [done|done| |done|by exists toast].
  intros response e' Hsettled He'. f_equal. by eapply Herror.
Qed.

Lemma loadProjects_failure_witness :
  let server_error := ApiError.mk "SERVER_ERROR" "Internal server error" None in
  let w' := exec (projectsStore.loadProjects
                    (Resolved (ApiResponse.mk false None (Some server_error))))
              (initial_world distinct_draws) in
  projects w' = []
  ∧ projectsLoading w' = LoadingState.mk false (Some server_error)
  ∧ (Toast.type <$> toasts w') = [ToastType.error].
Proof.
  intros server_error w'.
  destruct (loadProjects_failure
              (Resolved (ApiResponse.mk false None (Some server_error)))
              (initial_world distinct_draws))
    as (Hprojects & _ & Herror & Hloading & toast & Htoasts & Htype).
  - reflexivity.
  - split_and!; [exact Hprojects|reflexivity|].
    fold w' in Htoasts. rewrite Htoasts. simpl. by rewrite Htype.
Defined.

(** C2: after a successful [loadProjects] the collection is exactly the one
    the server returned, whatever it was before; [isLoading] is false (and
    the error is cleared). *)
Theorem loadProjects_success
    (response : ApiResponse.t (list Project.t)) (data : list Project.t) (w : World) :
  ApiResponse.success response = true ->
  ApiResponse.data response = Some data ->
  let w' := exec (projectsStore.loadProjects (Resolved response)) w in
  projects w' = data
  ∧ (forall project, project ∈ projects w' <-> project ∈ data)
  ∧ projectsLoading w' = LoadingState.mk false None
  ∧ toasts w' = toasts w.
Proof.
  intros Hsuccess Hdata w'. subst w'.
  unfold projectsStore.loadProjects, projectsStore.loadProjects_settle.
  rewrite Hsuccess, Hdata. done.
Qed.

Lemma loadProjects_success_witness :
  let old := Project.mk 1 "Project 1" "Description 1" None ["Rust"] None None None
               "Web" true "2024-01-01T00:00:00Z" in
  let new := Project.mk 2 "Project 2" "Description 2" None ["Svelte"] None None None
               "Frontend" false "2024-01-02T00:00:00Z" in
  let w := mkWorld [old] (LoadingState.mk false None) [] [] distinct_draws 0 in
  projects (exec (projectsStore.loadProjects
                    (Resolved (ApiResponse.mk true (Some [new]) None))) w) = [new].
Proof.
  intros old new w.
  apply (loadProjects_success (ApiResponse.mk true (Some [new]) None) [new] w);
    reflexivity.
Defined.

(** C4, as stated, fails: [createProject] appends without looking at the
    collection. When the returned entity is already there (a [loadProjects]
    that settled while the creation was in flight has fetched it), it is in
    the collection twice afterwards. *)
Lemma createProject_can_duplicate :
  let created := Project.mk 5 "X" "A new project" None ["Rust"] None None None
                   "Web" false "2024-01-03T00:00:00Z" in
  let w := mkWorld [created] (LoadingState.mk false None) [] [] distinct_draws 0 in
  let w' := exec (projectsStore.createProject
                    (Resolved (ApiResponse.mk true (Some created) None))) w in
  projects w' = [created; created]
  ∧ length (filter (fun project => project = created) (projects w')) = 2%nat.
Proof. split; reflexivity. Qed.

(** C4, amended: after a successful [createProject] the collection is the
    prior collection followed by the returned entity (so every prior entry is
    kept, in order, and the returned entity occurs once more than before:
    exactly once when it was not there), the call returns true and the queue
    has grown by exactly one toast, of type success. After a call that did
    not succeed the collection is unchanged and the call returns false. *)
Theorem createProject_appends (settled : Settled Project.t) (w : World) :
  let w' := exec (projectsStore.createProject settled) w in
  let result := eval (projectsStore.createProject settled) w in
  (forall created, succeeded settled = Some created ->
     projects w' = projects w ++ [created]
     ∧ length (filter (fun project => project = created) (projects w'))
       = S (length (filter (fun project => project = created) (projects w)))
     ∧ (created ∉ projects w ->
        length (filter (fun project => project = created) (projects w')) = 1%nat)
     ∧ result = true
     ∧ exists toast,
         toasts w' = toasts w ++ [toast] ∧ Toast.type toast = ToastType.success)
  ∧ (succeeded settled = None -> projects w' = projects w ∧ result = false).
Proof.
  intros w' result. subst w' result. split.
  - intros created Hsucceeded.
    destruct settled as [response|reason]; [|discriminate Hsucceeded]. simpl in *.
    destruct (ApiResponse.success response); [|discriminate Hsucceeded].
    rewrite Hsucceeded.
    destruct (success_toast_run "Projet créé" (Some "Le projet a été créé avec succès")
                (mkWorld (projects w ++ [created]) (projectsLoading w) (toasts w)
                   (timers w) (entropy w) (draws w)))
      as (toast & Htype & Hrun).
    unfold exec, eval, mbind, Action_bind, projects_update. rewrite Hrun. simpl.
    assert (Hcount : length (filter (fun project => project = created)
                               (projects w ++ [created]))
                     = S (length (filter (fun project => project = created) (projects w)))).
    { rewrite filter_app, length_app. rewrite filter_cons_True by done. simpl. lia. }
    split_and!; [done|done| |done|by exists toast].
    intros Hnew. rewrite Hcount. f_equal.
    destruct (filter (fun project => project = created) (projects w)) as [|p rest] eqn:E;
      [done|].
    assert (Hp : p ∈ filter (fun project => project = created) (projects w))
      by (rewrite E; by left).
    apply list_elem_of_filter in Hp as [-> Hin]. done.
  - intros Hfailed.
    destruct settled as [response|reason]; simpl in *.
    + set (errorMsg := or_string (projectsStore.error_message response)
                         "Erreur lors de la création du projet").
      destruct (error_toast_run "Erreur de création" (Some errorMsg) w)
        as (toast & Htype & Hrun).
      destruct (ApiResponse.success response), (ApiResponse.data response);
        try discriminate Hfailed;
        unfold exec, eval, mbind, Action_bind; fold errorMsg; by rewrite Hrun.
    + destruct (error_toast_run "Erreur réseau" (Some "Impossible de créer le projet") w)
        as (toast & Htype & Hrun).
      unfold exec, eval, mbind, Action_bind. by rewrite Hrun.
Qed.

Lemma createProject_appends_witness :
  let prior := Project.mk 1 "Project 1" "Description 1" None ["Rust"] None None None
                 "Web" true "2024-01-01T00:00:00Z" in
  let created := Project.mk 5 "X" "A new project" None ["Rust"] None None None
                   "Web" false "2024-01-03T00:00:00Z" in
  let w := mkWorld [prior] (LoadingState.mk false None) [] [] distinct_draws 0 in
  projects (exec (projectsStore.createProject
                    (Resolved (ApiResponse.mk true (Some created) None))) w)
  = [prior; created]
  ∧ projects (exec (projectsStore.createProject
                      (Resolved (ApiResponse.mk false None None))) w) = [prior].
Proof.
  intros prior created w. split.
  - destruct (createProject_appends
                (Resolved (ApiResponse.mk true (Some created) None)) w) as [Hok _].
    destruct (Hok created) as [Hprojects _]; [reflexivity|exact Hprojects].
  - destruct (createProject_appends (Resolved (ApiResponse.mk false None None)) w)
      as [_ Hfail].
    destruct Hfail as [Hprojects _]; [reflexivity|exact Hprojects].
Defined.

Lemma map_id_absent (id : Z) (updated : Project.t) (collection : list Project.t) :
  (forall project, project ∈ collection -> Project.id project ≠ id) ->
  map (fun project => if Project.id project =? id then updated else project) collection
  = collection.
Proof.
  induction collection as [|project rest IH]; intros Hnone; [done|].
  simpl. f_equal.
  - destruct (Z.eqb_spec (Project.id project) id) as [Heq|]; [|done].
    exfalso. apply (Hnone project); [by left|done].
  - apply IH. intros p Hp. apply Hnone. by right.
Qed.

(** C9: after a successful [updateProject id] every entry whose identifier
    is [id] has been replaced by the entity the server returned, every other
    entry is unchanged and at its position, and when no entry has the
    identifier [id] the collection is the same as before. *)
Theorem updateProject_replaces_in_place
    (id : Z) (settled : Settled Project.t) (updated : Project.t) (w : World) :
  succeeded settled = Some updated ->
  let w' := exec (projectsStore.updateProject id settled) w in
  length (projects w') = length (projects w)
  ∧ (forall (i : nat) (project : Project.t),
       projects w !! i = Some project ->
       projects w' !! i = Some (if Project.id project =? id then updated else project))
  ∧ ((forall project, project ∈ projects w -> Project.id project ≠ id) ->
     projects w' = projects w)
  ∧ eval (projectsStore.updateProject id settled) w = true.
Proof.
  intros Hsucceeded w'. subst w'.
  destruct settled as [response|reason]; [|discriminate Hsucceeded]. simpl in *.
  destruct (ApiResponse.success response); [|discriminate Hsucceeded].
  rewrite Hsucceeded.
  set (replace := fun project : Project.t =>
                    if Project.id project =? id then updated else project).
  destruct (success_toast_run "Projet mis à jour"
              (Some "Le projet a été mis à jour avec succès")
              (mkWorld (map replace (projects w)) (projectsLoading w) (toasts w)
                 (timers w) (entropy w) (draws w)))
    as (toast & Htype & Hrun).
  unfold exec, eval, mbind, Action_bind, projects_update. fold replace.
  rewrite Hrun. simpl.
  split_and!; [apply length_map| | |done].
  - intros i project Hi. change (map replace (projects w)) with (replace <$> projects w).
    by rewrite list_lookup_fmap, Hi.
  - intros Hnone. by apply map_id_absent.
Qed.

Lemma updateProject_replaces_in_place_witness :
  let project1 := Project.mk 1 "Project 1" "Description 1" None ["Rust"] None None None
                 "Web" true "2024-01-01T00:00:00Z" in
  let project2 := Project.mk 2 "Project 2" "Description 2" None ["Svelte"] None None None
                  "Frontend" false "2024-01-02T00:00:00Z" in
  let updated := Project.mk 1 "Project 1, renamed" "Description 1" None ["Rust"] None None
                   None "Web" true "2024-01-01T00:00:00Z" in
  let w := mkWorld [project1; project2] (LoadingState.mk false None) [] [] distinct_draws 0 in
  let w' := exec (projectsStore.updateProject 1
                    (Resolved (ApiResponse.mk true (Some updated) None))) w in
  projects w' !! 0%nat = Some updated ∧ projects w' !! 1%nat = Some project2.
Proof.
  intros project1 project2 updated w w'.
  destruct (updateProject_replaces_in_place 1
              (Resolved (ApiResponse.mk true (Some updated) None)) updated w)
    as (_ & Hlookup & _); [reflexivity|].
  split.
  - exact (Hlookup 0%nat project1 eq_refl).
  - exact (Hlookup 1%nat project2 eq_refl).
Defined.

(** ** Skills *)

(** C5: the five levels have their labels, and every level below 1 or above
    5 has the label of level 1. *)
Theorem getSkillLevelDisplay_clamped :
  getSkillLevelDisplay 1 = "Débutant"
  ∧ getSkillLevelDisplay 2 = "Intermédiaire"
  ∧ getSkillLevelDisplay 3 = "Confirmé"
  ∧ getSkillLevelDisplay 4 = "Expert"
  ∧ getSkillLevelDisplay 5 = "Maître"
  ∧ forall level, level <= 0 ∨ 5 < level -> getSkillLevelDisplay level = "Débutant".
Proof.
  split_and!; try reflexivity.
  intros level Hout. unfold getSkillLevelDisplay, index.
  destruct (Z.ltb_spec (level - 1) 0) as [|Hge]; [done|].
  destruct Hout as [|Habove]; [lia|].
  rewrite (lookup_ge_None_2 levels (Z.to_nat (level - 1))); [done|].
  simpl. lia.
Qed.

Lemma getSkillLevelDisplay_clamped_witness :
  getSkillLevelDisplay 0 = "Débutant" ∧ getSkillLevelDisplay 6 = "Débutant".
Proof.
  destruct getSkillLevelDisplay_clamped as (_ & _ & _ & _ & _ & Hout).
  split; apply Hout; [left|right]; lia.
Defined.

Section sort_by.
Context {A : Type} (compare : A -> A -> Z).
Hypothesis compare_total : forall a b, compare a b <= 0 ∨ compare b a <= 0.
Hypothesis compare_trans :
  forall a b c, compare a b <= 0 -> compare b c <= 0 -> compare a c <= 0.

Lemma insert_by_Permutation (x : A) (l : list A) : insert_by compare x l ≡ₚ x :: l.
Proof.
  induction l as [|y l IH]; simpl; [done|].
  destruct (compare x y <=? 0); [done|].
  rewrite IH. apply Permutation_swap.
Qed.

Lemma sort_by_Permutation (l : list A) : sort_by compare l ≡ₚ l.
Proof.
  induction l as [|x l IH]; simpl; [done|].
  change (foldr (insert_by compare) [] l) with (sort_by compare l).
  by rewrite insert_by_Permutation, IH.
Qed.

Lemma insert_by_StronglySorted (x : A) (l : list A) :
  StronglySorted (fun a b => compare a b <= 0) l ->
  StronglySorted (fun a b => compare a b <= 0) (insert_by compare x l).
Proof.
  induction l as [|y l IH]; intros Hsorted; simpl.
  - by repeat constructor.
  - apply StronglySorted_inv in Hsorted as [Hl Hy].
    destruct (Z.leb_spec (compare x y) 0) as [Hle|Hgt].
    + constructor; [by constructor|].
      constructor; [done|].
      eapply Forall_impl; [exact Hy|]. intros z Hz. by eapply compare_trans.
    + constructor; [by apply IH|].
      rewrite insert_by_Permutation. constructor; [|done].
      destruct (compare_total x y); [lia|done].
Qed.

Lemma sort_by_StronglySorted (l : list A) :
  StronglySorted (fun a b => compare a b <= 0) (sort_by compare l).
Proof.
  induction l as [|x l IH]; simpl; [constructor|].
  by apply insert_by_StronglySorted.
Qed.
End sort_by.

Lemma StronglySorted_weaken {A} (R1 R2 : A -> A -> Prop) (l : list A) :
  (forall a b, R1 a b -> R2 a b) -> StronglySorted R1 l -> StronglySorted R2 l.
Proof.
  intros Himpl Hsorted. induction Hsorted as [|x l Hl IH Hx]; constructor; [done|].
  eapply Forall_impl; [exact Hx|]. intros y. apply Himpl.
Qed.

Lemma compareSkills_group_order (localeCompare : string -> string -> Z) (a b : Skill.t) :
  compareSkills localeCompare a b <= 0 <-> group_order localeCompare a b.
Proof.
  unfold compareSkills, group_order. case_bool_decide as Hlevel; [lia|].
  rewrite Hlevel. split; [by right; split|].
  intros [|[_ ?]]; [lia|done].
Qed.

Lemma group_skills_snoc (skills : list Skill.t) (skill : Skill.t) :
  group_skills (skills ++ [skill])
  = group_skills skills ≫= fun grouped => group_skill grouped skill.
Proof. unfold group_skills. by rewrite foldl_snoc. Qed.

(** Unless a category is the name of an inherited member, grouping
    completes, and the group of a category is the skills of that category, in
    the order of the collection. *)
Lemma group_skills_lookup (skills : list Skill.t) :
  (forall skill, skill ∈ skills -> Skill.category skill ∉ Object_prototype_keys) ->
  exists grouped : gmap string (list Skill.t),
    group_skills skills = Some grouped
    ∧ forall c : string,
        grouped !! c
        = match filter (fun skill => Skill.category skill = c) skills with
          | [] => None
          | group => Some group
          end.
Proof.
  induction skills as [|skill skills IH] using rev_ind; intros Hkeys.
  - exists ∅. split; [done|]. intros c. by rewrite lookup_empty.
  - destruct IH as (grouped & Hgrouped & Hlookup).
    { intros s Hs. apply Hkeys, elem_of_app. by left. }
    rewrite group_skills_snoc, Hgrouped. simpl. unfold group_skill.
    assert (Hkey : Skill.category skill ∉ Object_prototype_keys).
    { apply Hkeys, elem_of_app. right. by left. }
    rewrite (Hlookup (Skill.category skill)).
    destruct (filter (fun s => Skill.category s = Skill.category skill) skills)
      as [|first rest] eqn:Hgroup.
    + rewrite bool_decide_eq_false_2 by done.
      eexists. split; [done|]. intros c. rewrite filter_app.
      destruct (decide (Skill.category skill = c)) as [<-|Hne].
      * rewrite lookup_insert_eq, Hgroup. by rewrite filter_cons_True.
      * rewrite lookup_insert_ne by done. rewrite Hlookup.
        rewrite (filter_cons_False _ skill) by done. by rewrite filter_nil, app_nil_r.
    + eexists. split; [done|]. intros c. rewrite filter_app.
      destruct (decide (Skill.category skill = c)) as [<-|Hne].
      * rewrite lookup_insert_eq, Hgroup. by rewrite filter_cons_True.
      * rewrite lookup_insert_ne by done. rewrite Hlookup.
        rewrite (filter_cons_False _ skill) by done. by rewrite filter_nil, app_nil_r.
Qed.

Lemma compare_keys_total (k1 k2 : list N) :
  compare_keys k1 k2 <= 0 ∨ compare_keys k2 k1 <= 0.
Proof.
  revert k2. induction k1 as [|x k1 IH]; intros [|y k2]; simpl; try lia.
  destruct (N.ltb_spec x y), (N.ltb_spec y x); try lia. apply IH.
Qed.

Lemma compare_keys_trans (k1 k2 k3 : list N) :
  compare_keys k1 k2 <= 0 -> compare_keys k2 k3 <= 0 -> compare_keys k1 k3 <= 0.
Proof.
  revert k2 k3. induction k1 as [|x k1 IH]; intros [|y k2] [|z k3]; simpl; try lia.
  destruct (N.ltb_spec x y), (N.ltb_spec y x), (N.ltb_spec y z), (N.ltb_spec z y),
    (N.ltb_spec x z), (N.ltb_spec z x); try lia.
  apply IH.
Qed.

(** A category that names an inherited member makes the grouping throw. *)
Lemma skillsByCategory_inherited_member (localeCompare : string -> string -> Z) :
  skillsByCategory localeCompare [Skill.mk 1 "Rust" "constructor" 5 None None] = None.
Proof. reflexivity. Qed.

(** C6, as stated, fails: ties are broken by [localeCompare], a collation,
    not by the case-sensitive lexicographic order. A collation ranks [a]
    before [B]; lexicographically [B] comes first. *)
Lemma skills_tie_order_not_lexicographic :
  skillsByCategory alphabetic_compare [skill_B; skill_a] ≫= (.!! "Tools")
  = Some [skill_a; skill_B]
  ∧ ¬ Sorted claimed_order [skill_a; skill_B].
Proof.
  split; [by vm_compute|].
  intros Hsorted. apply Sorted_inv in Hsorted as [_ Hhead].
  apply HdRel_inv in Hhead as [Hlevel|[_ Hname]].
  - vm_compute in Hlevel. discriminate Hlevel.
  - vm_compute in Hname. discriminate Hname.
Qed.

(** C6, amended: for every skills collection none of whose categories names
    a member inherited from [Object.prototype], the derived view maps each
    category to exactly the skills of that category, a category without
    skills to nothing, and each group is ordered by level descending, ties by
    name ascending in the order of [localeCompare] (the locale-sensitive
    collation of the host, a consistent comparator). *)
Theorem skillsByCategory_groups_sorted
    (localeCompare : string -> string -> Z) (skills : list Skill.t) :
  (forall a b, localeCompare a b <= 0 ∨ localeCompare b a <= 0) ->
  (forall a b c, localeCompare a b <= 0 -> localeCompare b c <= 0 -> localeCompare a c <= 0) ->
  (forall skill, skill ∈ skills -> Skill.category skill ∉ Object_prototype_keys) ->
  exists grouped : gmap string (list Skill.t),
    skillsByCategory localeCompare skills = Some grouped
    ∧ forall c : string,
        match grouped !! c with
        | Some group =>
            group ≠ []
            ∧ group ≡ₚ filter (fun skill => Skill.category skill = c) skills
            ∧ StronglySorted (group_order localeCompare) group
        | None => forall skill, skill ∈ skills -> Skill.category skill ≠ c
        end.
Proof.
  intros Htotal Htrans Hkeys.
  destruct (group_skills_lookup skills Hkeys) as (grouped & Hgrouped & Hlookup).
  exists (sort_by (compareSkills localeCompare) <$> grouped).
  split; [unfold skillsByCategory; by rewrite Hgrouped|].
  intros c. rewrite lookup_fmap, Hlookup.
  destruct (filter (fun skill => Skill.category skill = c) skills)
    as [|first rest] eqn:Hgroup; simpl.
  - intros skill Hin Hc. eapply filter_nil_not_elem_of; [exact Hgroup|exact Hc|exact Hin].
  - change (foldr (insert_by (compareSkills localeCompare)) [] rest)
      with (sort_by (compareSkills localeCompare) rest).
    change (insert_by (compareSkills localeCompare) first
              (sort_by (compareSkills localeCompare) rest))
      with (sort_by (compareSkills localeCompare) (first :: rest)).
    split_and!.
    + intros Hnil.
      pose proof (sort_by_Permutation (compareSkills localeCompare) (first :: rest)) as Hperm.
      rewrite Hnil in Hperm. by apply Permutation_nil_cons in Hperm.
    + apply sort_by_Permutation.
    + eapply StronglySorted_weaken;
        [intros a b; apply compareSkills_group_order|apply sort_by_StronglySorted].
      * intros a b. rewrite !compareSkills_group_order. unfold group_order.
        destruct (Htotal (Skill.name a) (Skill.name b)); lia.
      * intros x y z. rewrite !compareSkills_group_order. unfold group_order.
        intros [Hxy|[Hxy Hnxy]] [Hyz|[Hyz Hnyz]]; try (left; lia).
        right. split; [lia|]. by eapply Htrans.
Qed.

Lemma skillsByCategory_groups_sorted_witness :
  exists grouped : gmap string (list Skill.t),
    skillsByCategory alphabetic_compare mockSkills = Some grouped
    ∧ forall c : string,
        match grouped !! c with
        | Some group =>
            group ≠ []
            ∧ group ≡ₚ filter (fun skill => Skill.category skill = c) mockSkills
            ∧ StronglySorted (group_order alphabetic_compare) group
        | None => forall skill, skill ∈ mockSkills -> Skill.category skill ≠ c
        end.
Proof.
  apply (skillsByCategory_groups_sorted alphabetic_compare mockSkills).
  - intros a b. apply compare_keys_total.
  - intros a b c. apply compare_keys_trans.
  - apply Forall_forall. apply (bool_decide_unpack _). by vm_compute.
Defined.

(** ** The API client *)

(** C3, as stated, fails: the body of a 2xx response is returned as it is.
    A body that is the empty object comes back unchanged, and it does not
    have the normalized shape: it has no [success] member. *)
Lemma request_returns_body_unchecked :
  ApiClient.request (Js.Normal empty_body_response) = Js.Normal (Js.Object [])
  ∧ ApiClient.is_ApiResponse (Js.Object []) = false.
Proof. split; reflexivity. Qed.

(** C3, amended: [request] never throws, it always returns a value. When
    [fetch] throws, the value is the failure with code [NETWORK_ERROR]. For a
    non-2xx response whose body is JSON with a readable [error] member, the
    value is the failure carrying that member unchanged when it is truthy,
    and the failure with code [HTTP_ERROR] and message
    [HTTP <status>: <statusText>] otherwise. For a 2xx response whose body is
    JSON, the value is the body itself. The failures the client builds have
    the normalized shape (the passed-through one when the server's error is
    structured); a 2xx result has it exactly when the body has it. *)
Theorem request_never_throws (fetched : Js.completion ApiClient.Response) :
  (exists result, ApiClient.request fetched = Js.Normal result)
  ∧ (forall reason, fetched = Js.Throw reason ->
       ApiClient.request fetched = Js.Normal (ApiClient.failure ApiClient.network_error)
       ∧ ApiClient.error_code (ApiClient.failure ApiClient.network_error)
         = Js.Str "NETWORK_ERROR"
       ∧ ApiClient.is_ApiResponse (ApiClient.failure ApiClient.network_error) = true)
  ∧ (forall response data error,
       fetched = Js.Normal response ->
       ApiClient.json response = Js.Normal data ->
       ApiClient.ok response = false ->
       Js.get data "error" = Js.Normal error ->
       (Js.truthy error = true ->
        ApiClient.request fetched = Js.Normal (ApiClient.failure error)
        ∧ (ApiClient.is_ApiError error = true ->
           ApiClient.is_ApiResponse (ApiClient.failure error) = true))
       ∧ (Js.truthy error = false ->
          ApiClient.request fetched
          = Js.Normal (ApiClient.failure (ApiClient.http_error response))
          ∧ ApiClient.error_code (ApiClient.failure (ApiClient.http_error response))
            = Js.Str "HTTP_ERROR"
          ∧ ApiClient.is_ApiResponse (ApiClient.failure (ApiClient.http_error response))
            = true))
  ∧ (forall response data,
       fetched = Js.Normal response ->
       ApiClient.json response = Js.Normal data ->
       ApiClient.ok response = true ->
       ApiClient.request fetched = Js.Normal data).
Proof.
  split_and!.
  - unfold ApiClient.request, Js.try_catch, mbind, Js.completion_bind, mret, Js.completion_ret.
    destruct fetched as [response|reason]; [|by eexists].
    destruct (ApiClient.json response) as [data|reason]; [|by eexists].
    destruct (ApiClient.ok response); simpl; [by eexists|].
    destruct (Js.get data "error"); by eexists.
  - intros reason ->. done.
  - intros response data error -> Hjson Hok Hget.
    unfold ApiClient.request, Js.try_catch, mbind, Js.completion_bind, mret, Js.completion_ret.
    rewrite Hjson, Hok, Hget. simpl. unfold Js.or.
    split; intros ->; [|done].
    split; [done|]. intros Hshape. simpl. exact Hshape.
  - intros response data -> Hjson Hok.
    unfold ApiClient.request, Js.try_catch, mbind, Js.completion_bind, mret, Js.completion_ret.
    by rewrite Hjson, Hok.
Qed.

Lemma request_never_throws_witness :
  ApiClient.error_code
    (ApiClient.failure (Js.Object [("code", Js.Str "NOT_FOUND");
                                   ("message", Js.Str "Resource not found")]))
  = Js.Str "NOT_FOUND"
  ∧ ApiClient.request (Js.Normal not_found_response)
    = Js.Normal
        (ApiClient.failure (Js.Object [("code", Js.Str "NOT_FOUND");
                                       ("message", Js.Str "Resource not found")]))
  ∧ ApiClient.request (Js.Normal server_error_response)
    = Js.Normal (ApiClient.failure (ApiClient.http_error server_error_response))
  ∧ ApiClient.request (Js.Throw "TypeError: fetch failed")
    = Js.Normal (ApiClient.failure ApiClient.network_error).
Proof.
  split_and!.
  - reflexivity.
  - destruct (request_never_throws (Js.Normal not_found_response)) as (_ & _ & Hfail & _).
    edestruct Hfail as [Hpass _]; [reflexivity..|].
    destruct Hpass as [Hresult _]; [reflexivity|exact Hresult].
  - destruct (request_never_throws (Js.Normal server_error_response)) as (_ & _ & Hfail & _).
    edestruct Hfail as [_ Hhttp]; [reflexivity..|].
    destruct Hhttp as [Hresult _]; [reflexivity|exact Hresult].
  - destruct (request_never_throws (Js.Throw "TypeError: fetch failed")) as (_ & Hthrow & _).
    destruct (Hthrow _ eq_refl) as [Hresult _]. exact Hresult.
Defined.

(** A non-2xx response whose body is not JSON: [response.json()] throws, and
    the result is the failure of the [catch]. *)
Lemma request_unparseable_body :
  ApiClient.request
    (Js.Normal (ApiClient.mkResponse false 502 "Bad Gateway" (Js.Throw "SyntaxError")))
  = Js.Normal (ApiClient.failure ApiClient.network_error).
Proof. reflexivity. Qed.

(** ** Contact form validation *)

(** C7: a message passes exactly when its trimmed length is between 10 and
    1000, both included (so 10 and 1000 pass, 9 and 1001 do not); the email
    [a@b.c] passes the pattern and [a@b] does not. *)
Theorem validateField_message_email :
  (forall value : ContactForm.jsstring,
     ContactForm.validateField ContactForm.message value = None
     <-> (10 <= length (ContactForm.trim value) <= 1000)%nat)
  ∧ ContactForm.validateField ContactForm.email (ContactForm.of_ascii_string "a@b.c") = None
  ∧ ContactForm.validateField ContactForm.email (ContactForm.of_ascii_string "a@b")
    = Some "Format d'email invalide".
Proof.
  split_and!; [|reflexivity..].
  intros value. unfold ContactForm.validateField, ContactForm.blank.
  destruct (ContactForm.trim value) as [|c trimmed] eqn:Htrim.
  - simpl. split; [discriminate|lia].
  - destruct (Nat.ltb_spec (length (c :: trimmed)) 10);
      [split; [discriminate|lia]|].
    destruct (Nat.ltb_spec 1000 (length (c :: trimmed)));
      [split; [discriminate|lia]|].
    split; [lia|done].
Qed.

Lemma validateField_message_email_witness :
  ContactForm.validateField ContactForm.message (replicate 10 65%N) = None
  ∧ ContactForm.validateField ContactForm.message (replicate 1000 65%N) = None
  ∧ ContactForm.validateField ContactForm.message (replicate 9 65%N) ≠ None
  ∧ ContactForm.validateField ContactForm.message (replicate 1001 65%N) ≠ None
  ∧ ContactForm.validateField ContactForm.message
      ([32%N] ++ replicate 10 65%N ++ [9%N; 10%N]) = None.
Proof.
  destruct validateField_message_email as (Hbounds & _ & _).
  split_and!.
  - apply Hbounds. vm_compute. lia.
  - apply Hbounds. vm_compute. lia.
  - intros Hnone. apply Hbounds in Hnone. vm_compute in Hnone. lia.
  - intros Hnone. apply Hbounds in Hnone. vm_compute in Hnone. lia.
  - apply Hbounds. vm_compute. lia.
Defined.

(** * Further properties *)

(** ** The toast queue *)

(** X1: dismissing the id that [add] returned undoes the [add] on the queue,
    provided the id was not already queued. *)
Theorem add_then_dismiss (options : ToastOptions.t) (w : World) :
  next_id w ∉ queued_ids w ->
  toasts (exec (toastStore.dismiss (eval (toastStore.add options) w))
            (exec (toastStore.add options) w))
  = toasts w.
Proof.
  intros Hfresh. unfold exec, eval. rewrite add_run, dismiss_run. simpl.
  rewrite filter_app, dismiss_absent by done.
  rewrite filter_cons_False by (simpl; naive_solver).
  by rewrite filter_nil, app_nil_r.
Qed.

Lemma add_then_dismiss_witness :
  toasts (exec (toastStore.dismiss "4fzyo82mv")
            (exec (toastStore.add (saved_options None)) (initial_world distinct_draws)))
  = [].
Proof.
  apply (add_then_dismiss (saved_options None) (initial_world distinct_draws)).
  apply not_elem_of_nil.
Defined.

(** X2: when the timer that [add] scheduled fires, the queue and the pending
    timers are what they were before the [add], provided the duration is not
    negative and the id was not already queued. *)
Theorem add_then_expire (options : ToastOptions.t) (w : World) :
  (forall d, ToastOptions.duration options = Some d -> 0 <= d) ->
  next_id w ∉ queued_ids w ->
  let w' := exec (expire (length (timers w))) (exec (toastStore.add options) w) in
  toasts w' = toasts w ∧ timers w' = timers w.
Proof.
  intros Hnonneg Hfresh.
  assert (Hpos : (0 <? Toast.duration (next_toast options w)) = true).
  { apply Z.ltb_lt. simpl. unfold or_number.
    destruct (ToastOptions.duration options) as [d|]; [|lia].
    specialize (Hnonneg d eq_refl). destruct (d =? 0) eqn:E; lia. }
  unfold exec at 1. unfold exec. rewrite add_run, Hpos. unfold expire. cbn [snd timers].
  rewrite list_lookup_middle by done. rewrite dismiss_run. simpl.
  rewrite delete_middle, app_nil_r. split; [|done].
  rewrite filter_app, dismiss_absent by done.
  rewrite filter_cons_False by (simpl; naive_solver).
  by rewrite filter_nil, app_nil_r.
Qed.

Lemma add_then_expire_witness :
  let w' := exec (expire 0)
              (exec (toastStore.add (saved_options (Some 3000)))
                 (initial_world distinct_draws)) in
  toasts w' = [] ∧ timers w' = [].
Proof.
  apply (add_then_expire (saved_options (Some 3000)) (initial_world distinct_draws)).
  - intros d [= <-]. lia.
  - apply not_elem_of_nil.
Defined.

Lemma removal_pending_filter (P : Toast.t -> Prop) `{!forall toast, Decision (P toast)}
    (w : World) (queue : list Toast.t) :
  removal_pending w ->
  toasts w = queue ->
  removal_pending
    (mkWorld (projects w) (projectsLoading w) (filter P queue) (timers w)
       (entropy w) (draws w)).
Proof.
  intros Hinv <- toast Hin Hpos. simpl in *.
  apply list_elem_of_filter in Hin as [_ Hin]. by apply Hinv.
Qed.

Lemma elem_of_delete_other {A} (l : list A) (n : nat) (x y : A) :
  l !! n = Some y -> x ≠ y -> x ∈ l -> x ∈ delete n l.
Proof.
  revert n. induction l as [|z l IH]; intros n Hn Hne Hin.
  - by apply elem_of_nil in Hin.
  - destruct n as [|n]; simpl in *.
    + injection Hn as ->. apply elem_of_cons in Hin as [->|Hin]; done.
    + apply elem_of_cons in Hin as [->|Hin]; [by left|].
      right. by eapply IH.
Qed.

Lemma removal_pending_call (c : ToastCall) (w : World) :
  removal_pending w -> removal_pending (exec (call c) w).
Proof.
  intros Hinv. destruct c as [options|id| |n]; unfold exec; simpl;
    unfold mbind, Action_bind.
  - rewrite add_run. simpl. intros toast Hin Hpos. simpl in *.
    apply elem_of_app in Hin as [Hin|Hin].
    + apply elem_of_app. left. by apply Hinv.
    + apply list_elem_of_singleton in Hin. subst toast.
      apply elem_of_app. right. apply Z.ltb_lt in Hpos. simpl in Hpos. rewrite Hpos.
      by left.
  - simpl. by apply removal_pending_filter.
  - simpl. intros toast Hin. by apply elem_of_nil in Hin.
  - unfold expire. destruct (timers w !! n) as [timer|] eqn:Hn; [|done].
    simpl. intros toast Hin Hpos. simpl in *.
    apply list_elem_of_filter in Hin as [Hid Hin].
    eapply elem_of_delete_other; [exact Hn| |by apply Hinv].
    intros <-. by apply Hid.
Qed.

(** X3: in every session that starts with the invariant (for instance with
    an empty queue), each queued toast with a positive duration still has the
    timer that removes it pending: no such toast is left behind by [dismiss],
    [clear] or the expiry of another timer. *)
Theorem removal_stays_pending (calls : list ToastCall) (w : World) :
  removal_pending w -> removal_pending (exec (session calls) w).
Proof.
  revert w. induction calls as [|c calls IH]; intros w Hinv; [done|].
  destruct (session_cons c calls w) as [_ ->].
  by apply IH, removal_pending_call.
Qed.

Lemma removal_stays_pending_witness :
  removal_pending
    (exec (session [Add (saved_options None); Add (saved_options (Some 0));
                    Dismiss "k1x9q0c7d"; Add (saved_options None); Expire 0])
       (initial_world distinct_draws)).
Proof.
  apply removal_stays_pending.
  intros toast Hin. by apply elem_of_nil in Hin.
Defined.

(** X4: every id in the queue after a session was either queued at its start
    or returned by one of its [add] calls, and the queue has grown by at most
    the number of those calls. *)
Theorem queued_ids_were_returned (calls : list ToastCall) (w : World) :
  (forall id, id ∈ queued_ids (exec (session calls) w) ->
     id ∈ queued_ids w ∨ id ∈ eval (session calls) w)
  ∧ (length (toasts (exec (session calls) w))
     <= length (toasts w) + length (eval (session calls) w))%nat.
Proof.
  revert w. induction calls as [|c calls IH]; intros w.
  - split; [by left|unfold eval, exec; simpl; lia].
  - destruct (session_cons c calls w) as [-> ->].
    destruct (IH (exec (call c) w)) as [Hids Hlen].
    assert (Hcount : forall v, length (toasts v) = length (queued_ids v)).
    { intros v. unfold queued_ids. by rewrite length_fmap. }
    destruct (call_cases c w) as [[Hret Hqueue]|[Hret Hqueue]]; rewrite Hret.
    + split.
      * intros id Hid. destruct (Hids id Hid) as [Hin|Hin].
        -- rewrite Hqueue in Hin. apply elem_of_app in Hin as [Hin|Hin]; [by left|].
           right. apply elem_of_app. by left.
        -- right. apply elem_of_app. by right.
      * rewrite (Hcount (exec (call c) w)), Hqueue, length_app in Hlen.
        rewrite length_app, (Hcount w). simpl in *. lia.
    + split.
      * intros id Hid. destruct (Hids id Hid) as [Hin|Hin]; [|by right].
        left. exact (elem_of_sublist _ _ _ Hin Hqueue).
      * apply sublist_length in Hqueue. rewrite (Hcount (exec (call c) w)) in Hlen.
        rewrite (Hcount w). simpl. lia.
Qed.

(** X5: after [dismiss id] no queued toast has the id [id], the toasts with
    another id are all still queued, in their order, and dismissing again
    changes nothing. *)
Theorem dismiss_removes_id (id : string) (w : World) :
  let w' := exec (toastStore.dismiss id) w in
  (id ∉ queued_ids w')
  ∧ (toasts w' `sublist_of` toasts w)
  ∧ (forall toast, toast ∈ toasts w -> Toast.id toast ≠ id -> toast ∈ toasts w')
  ∧ exec (toastStore.dismiss id) w' = w'.
Proof.
  unfold exec. rewrite !dismiss_run. simpl. split_and!.
  - unfold queued_ids. simpl. intros Hin.
    apply list_elem_of_fmap in Hin as (toast & -> & Hin).
    apply list_elem_of_filter in Hin as [Hne _]. done.
  - apply sublist_filter.
  - intros toast Hin Hne. by apply list_elem_of_filter.
  - f_equal. apply list_filter_filter_l. done.
Qed.

(** X6: an error toast never gets the 5000 ms default: [error] stores the
    given duration, or 8000 ms when it is absent or zero; the toast has the
    type error, the title and message given, and is dismissible. *)
Theorem error_toast_duration
    (title : string) (message : option string) (duration : option Z) (w : World) :
  toasts (exec (toastStore.error title message duration) w)
  = toasts w
    ++ [Toast.mk (next_id w) ToastType.error title message
          (match duration with
           | Some d => if d =? 0 then 8000 else d
           | None => 8000
           end)
          true].
Proof.
  unfold toastStore.error. rewrite add_toasts. do 2 f_equal.
  unfold next_toast; simpl. f_equal.
  destruct duration as [d|]; simpl; [|done].
  destruct (d =? 0) eqn:E; simpl; [done|by rewrite E].
Qed.

(** ** The projects store, continued *)

(** X7: after a successful [deleteProject id] no entry has the identifier
    [id], every other entry is kept, in order, and the call returns true;
    after a call that was rejected or answered [success: false] the
    collection is unchanged and the call returns false. *)
Theorem deleteProject_removes (id : Z) (settled : Settled unit) (w : World) :
  let w' := exec (projectsStore.deleteProject id settled) w in
  let result := eval (projectsStore.deleteProject id settled) w in
  (forall response, settled = Resolved response -> ApiResponse.success response = true ->
     projects w' = filter (fun project => Project.id project ≠ id) (projects w)
     ∧ (id ∉ project_ids w')
     ∧ (forall project, project ∈ projects w -> Project.id project ≠ id ->
        project ∈ projects w')
     ∧ result = true)
  ∧ (failed settled -> projects w' = projects w ∧ result = false).
Proof.
  intros w' result. subst w' result. split.
  - intros response -> Hsuccess. simpl. rewrite Hsuccess.
    destruct (success_toast_run "Projet supprimé"
                (Some "Le projet a été supprimé avec succès")
                (mkWorld (filter (fun project => Project.id project ≠ id) (projects w))
                   (projectsLoading w) (toasts w) (timers w) (entropy w) (draws w)))
      as (toast & Htype & Hrun).
    unfold exec, eval, mbind, Action_bind, projects_update. rewrite Hrun. simpl.
    split_and!; [done| | |done].
    + unfold project_ids. simpl. intros Hin.
      apply list_elem_of_fmap in Hin as (project & -> & Hin).
      apply list_elem_of_filter in Hin as [Hne _]. done.
    + intros project Hin Hne. by apply list_elem_of_filter.
  - intros Hfailed. destruct settled as [response|reason]; simpl in *.
    + rewrite Hfailed.
      set (errorMsg := or_string (projectsStore.error_message response)
                         "Erreur lors de la suppression du projet").
      destruct (error_toast_run "Erreur de suppression" (Some errorMsg) w)
        as (toast & Htype & Hrun).
      unfold exec, eval, mbind, Action_bind. by rewrite Hrun.
    + destruct (error_toast_run "Erreur réseau" (Some "Impossible de supprimer le projet") w)
        as (toast & Htype & Hrun).
      unfold exec, eval, mbind, Action_bind. by rewrite Hrun.
Qed.

Lemma deleteProject_removes_witness :
  let kept := Project.mk 1 "Project 1" "Description 1" None ["Rust"] None None None
                "Web" true "2024-01-01T00:00:00Z" in
  let gone := Project.mk 2 "Project 2" "Description 2" None ["Svelte"] None None None
                "Frontend" false "2024-01-02T00:00:00Z" in
  let w := mkWorld [kept; gone] (LoadingState.mk false None) [] [] distinct_draws 0 in
  projects (exec (projectsStore.deleteProject 2
                    (Resolved (ApiResponse.mk true None None))) w) = [kept]
  ∧ projects (exec (projectsStore.deleteProject 2 (Rejected "offline")) w) = [kept; gone].
Proof.
  intros kept gone w. split.
  - destruct (deleteProject_removes 2 (Resolved (ApiResponse.mk true None None)) w)
      as [Hok _].
    destruct (Hok _ eq_refl eq_refl) as [Hprojects _]. exact Hprojects.
  - destruct (deleteProject_removes 2 (Rejected "offline") w) as [_ Hfail].
    destruct Hfail as [Hprojects _]; [exact I|exact Hprojects].
Defined.

Lemma exec_bind {A B} (m : Action A) (k : A -> Action B) (w : World) :
  exec (m ≫= k) w = exec (k (eval m w)) (exec m w).
Proof. unfold exec, eval, mbind, Action_bind. by destruct (m w). Qed.

Lemma eval_bind {A B} (m : Action A) (k : A -> Action B) (w : World) :
  eval (m ≫= k) w = eval (k (eval m w)) (exec m w).
Proof. unfold exec, eval, mbind, Action_bind. by destruct (m w). Qed.

Lemma exec_ret {A} (a : A) (w : World) : exec (mret a) w = w.
Proof. reflexivity. Qed.

Lemma eval_ret {A} (a : A) (w : World) : eval (mret a) w = a.
Proof. reflexivity. Qed.

(** A toast leaves the two stores of the projects alone. *)
Lemma toast_frame (kind : ToastType.t) (title : string) (message : option string)
    (duration : option Z) (w : World) :
  let action :=
    match kind with
    | ToastType.success => toastStore.success title message duration
    | ToastType.error => toastStore.error title message duration
    | ToastType.warning => toastStore.warning title message duration
    | ToastType.info => toastStore.info title message duration
    end in
  projects (exec action w) = projects w
  ∧ projectsLoading (exec action w) = projectsLoading w
  ∧ exists toast, toasts (exec action w) = toasts w ++ [toast] ∧ Toast.type toast = kind.
Proof.
  destruct kind; simpl;
    unfold toastStore.success, toastStore.error, toastStore.warning, toastStore.info,
      exec; rewrite add_run; simpl; (split_and!; [done|done|by eexists]).
Qed.

Lemma createProject_projects (settled : Settled Project.t) (w : World) :
  projects (exec (projectsStore.createProject settled) w)
  = match succeeded settled with
    | Some created => projects w ++ [created]
    | None => projects w
    end.
Proof.
  unfold projectsStore.createProject, succeeded.
  destruct settled as [response|reason];
    [destruct (ApiResponse.success response), (ApiResponse.data response)|];
    rewrite !exec_bind, exec_ret;
    first [ by rewrite (proj1 (toast_frame ToastType.success _ _ _ _))
          | by rewrite (proj1 (toast_frame ToastType.error _ _ _ _)) ].
Qed.

Lemma updateProject_projects (id : Z) (settled : Settled Project.t) (w : World) :
  projects (exec (projectsStore.updateProject id settled) w)
  = match succeeded settled with
    | Some updated =>
        map (fun project => if Project.id project =? id then updated else project)
          (projects w)
    | None => projects w
    end.
Proof.
  unfold projectsStore.updateProject, succeeded.
  destruct settled as [response|reason];
    [destruct (ApiResponse.success response), (ApiResponse.data response)|];
    rewrite !exec_bind, exec_ret;
    first [ by rewrite (proj1 (toast_frame ToastType.success _ _ _ _))
          | by rewrite (proj1 (toast_frame ToastType.error _ _ _ _)) ].
Qed.

Lemma deleteProject_projects (id : Z) (settled : Settled unit) (w : World) :
  projects (exec (projectsStore.deleteProject id settled) w)
  = match settled with
    | Resolved response =>
        if ApiResponse.success response
        then filter (fun project => Project.id project ≠ id) (projects w)
        else projects w
    | Rejected _ => projects w
    end.
Proof.
  unfold projectsStore.deleteProject.
  destruct settled as [response|reason];
    [destruct (ApiResponse.success response)|];
    rewrite !exec_bind, exec_ret;
    first [ by rewrite (proj1 (toast_frame ToastType.success _ _ _ _))
          | by rewrite (proj1 (toast_frame ToastType.error _ _ _ _)) ].
Qed.

Lemma filter_id_absent (id : Z) (collection : list Project.t) :
  id ∉ Project.id <$> collection ->
  filter (fun project => Project.id project ≠ id) collection = collection.
Proof.
  induction collection as [|project rest IH]; intros Hnotin; [done|].
  rewrite fmap_cons in Hnotin. apply not_elem_of_cons in Hnotin as [Hne Hnotin].
  rewrite filter_cons_True by congruence. f_equal. by apply IH.
Qed.

(** X8: creating a project and then deleting it by the identifier the server
    gave it brings the collection back to what it was, provided no earlier
    entry has that identifier. *)
Theorem createProject_then_deleteProject
    (created : Project.t) (settled : Settled Project.t)
    (response : ApiResponse.t unit) (w : World) :
  succeeded settled = Some created ->
  ApiResponse.success response = true ->
  Project.id created ∉ project_ids w ->
  projects (exec (projectsStore.deleteProject (Project.id created) (Resolved response))
              (exec (projectsStore.createProject settled) w))
  = projects w.
Proof.
  intros Hcreated Hdeleted Hfresh.
  rewrite deleteProject_projects, Hdeleted, createProject_projects, Hcreated.
  rewrite filter_app, filter_id_absent by done.
  rewrite filter_cons_False by naive_solver.
  by rewrite filter_nil, app_nil_r.
Qed.

Lemma createProject_then_deleteProject_witness :
  let prior := Project.mk 1 "Project 1" "Description 1" None ["Rust"] None None None
                 "Web" true "2024-01-01T00:00:00Z" in
  let created := Project.mk 5 "X" "A new project" None ["Rust"] None None None
                   "Web" false "2024-01-03T00:00:00Z" in
  let w := mkWorld [prior] (LoadingState.mk false None) [] [] distinct_draws 0 in
  projects (exec (projectsStore.deleteProject 5 (Resolved (ApiResponse.mk true None None)))
              (exec (projectsStore.createProject
                       (Resolved (ApiResponse.mk true (Some created) None))) w))
  = [prior].
Proof.
  intros prior created w.
  apply (createProject_then_deleteProject created
           (Resolved (ApiResponse.mk true (Some created) None))
           (ApiResponse.mk true None None) w); [reflexivity|reflexivity|].
  apply (bool_decide_unpack _). by vm_compute.
Defined.

(** X9: the mutations keep the identifiers of the collection pairwise
    distinct: [deleteProject] always, [updateProject id] when the entity the
    server returned carries the identifier [id] (the identifiers then stay
    where they were), [createProject] when the identifier of the created
    entity is new. *)
Theorem mutations_keep_ids_distinct (w : World) :
  NoDup (project_ids w) ->
  (forall id settled, NoDup (project_ids (exec (projectsStore.deleteProject id settled) w)))
  ∧ (forall id settled updated,
       succeeded settled = Some updated -> Project.id updated = id ->
       project_ids (exec (projectsStore.updateProject id settled) w) = project_ids w)
  ∧ (forall settled created,
       succeeded settled = Some created -> Project.id created ∉ project_ids w ->
       NoDup (project_ids (exec (projectsStore.createProject settled) w))).
Proof.
  intros Hnd. split_and!.
  - intros id settled. unfold project_ids. rewrite deleteProject_projects.
    destruct settled as [response|reason]; [|done].
    destruct (ApiResponse.success response); [|done].
    eapply sublist_NoDup; [exact Hnd|]. apply fmap_sublist, sublist_filter.
  - intros id settled updated Hsettled Hid. unfold project_ids.
    rewrite updateProject_projects, Hsettled.
    induction (projects w) as [|project rest IH]; [done|].
    simpl. f_equal; [|done].
    destruct (Z.eqb_spec (Project.id project) id); congruence.
  - intros settled created Hsettled Hfresh. unfold project_ids.
    rewrite createProject_projects, Hsettled, fmap_app.
    apply NoDup_app. split_and!; [done| |apply NoDup_singleton].
    intros id Hin Hnew. apply list_elem_of_singleton in Hnew. by subst id.
Qed.

Lemma mutations_keep_ids_distinct_witness :
  let prior := Project.mk 1 "Project 1" "Description 1" None ["Rust"] None None None
                 "Web" true "2024-01-01T00:00:00Z" in
  let created := Project.mk 5 "X" "A new project" None ["Rust"] None None None
                   "Web" false "2024-01-03T00:00:00Z" in
  let w := mkWorld [prior] (LoadingState.mk false None) [] [] distinct_draws 0 in
  NoDup (project_ids (exec (projectsStore.createProject
                              (Resolved (ApiResponse.mk true (Some created) None))) w)).
Proof.
  intros prior created w.
  destruct (mutations_keep_ids_distinct w) as (_ & _ & Hcreate).
  - apply (bool_decide_unpack _). by vm_compute.
  - apply (Hcreate _ created); [reflexivity|].
    apply (bool_decide_unpack _). by vm_compute.
Defined.

Lemma toast_then_ret {A} (kind : ToastType.t) (title : string) (message : option string)
    (result : A) (w : World) :
  let toast_action :=
    match kind with
    | ToastType.success => toastStore.success title message None
    | ToastType.error => toastStore.error title message None
    | ToastType.warning => toastStore.warning title message None
    | ToastType.info => toastStore.info title message None
    end in
  let action := toast_action ≫= fun _ => mret result in
  eval action w = result
  ∧ projects (exec action w) = projects w
  ∧ projectsLoading (exec action w) = projectsLoading w
  ∧ exists toast, toasts (exec action w) = toasts w ++ [toast] ∧ Toast.type toast = kind.
Proof.
  intros toast_action action. subst action.
  rewrite exec_bind, eval_bind, exec_ret, eval_ret.
  split; [done|]. apply (toast_frame kind title message None w).
Qed.

(** X10: a mutation ([createProject], [updateProject], [deleteProject])
    never touches the loading state, whatever its outcome, and queues exactly
    one toast, of type success when it returns true and of type error when it
    returns false. *)
Theorem mutations_report_by_toast (w : World) :
  forall action : Action bool,
    (exists settled, action = projectsStore.createProject settled)
    ∨ (exists id settled, action = projectsStore.updateProject id settled)
    ∨ (exists id settled, action = projectsStore.deleteProject id settled) ->
    projectsLoading (exec action w) = projectsLoading w
    ∧ exists toast,
        toasts (exec action w) = toasts w ++ [toast]
        ∧ Toast.type toast
          = if eval action w then ToastType.success else ToastType.error.
Proof.
  intros action [[settled ->]|[(id & settled & ->)|(id & settled & ->)]].
  - unfold projectsStore.createProject.
    destruct settled as [response|reason];
      [destruct (ApiResponse.success response), (ApiResponse.data response)|].
    + rewrite exec_bind, eval_bind.
      set (w1 := exec (projects_update _) w).
      destruct (toast_then_ret ToastType.success "Projet créé"
                  (Some "Le projet a été créé avec succès") true w1)
        as (-> & _ & Hloading & Htoast).
      split; [exact Hloading|exact Htoast].
    + destruct (toast_then_ret ToastType.error "Erreur de création"
                  (Some (or_string (projectsStore.error_message response)
                           "Erreur lors de la création du projet")) false w)
        as (-> & _ & Hloading & Htoast). done.
    + destruct (toast_then_ret ToastType.error "Erreur de création"
                  (Some (or_string (projectsStore.error_message response)
                           "Erreur lors de la création du projet")) false w)
        as (-> & _ & Hloading & Htoast). done.
    + destruct (toast_then_ret ToastType.error "Erreur de création"
                  (Some (or_string (projectsStore.error_message response)
                           "Erreur lors de la création du projet")) false w)
        as (-> & _ & Hloading & Htoast). done.
    + destruct (toast_then_ret ToastType.error "Erreur réseau"
                  (Some "Impossible de créer le projet") false w)
        as (-> & _ & Hloading & Htoast). done.
  - unfold projectsStore.updateProject.
    destruct settled as [response|reason];
      [destruct (ApiResponse.success response), (ApiResponse.data response)|].
    + rewrite exec_bind, eval_bind.
      set (w1 := exec (projects_update _) w).
      destruct (toast_then_ret ToastType.success "Projet mis à jour"
                  (Some "Le projet a été mis à jour avec succès") true w1)
        as (-> & _ & Hloading & Htoast).
      split; [exact Hloading|exact Htoast].
    + destruct (toast_then_ret ToastType.error "Erreur de mise à jour"
                  (Some (or_string (projectsStore.error_message response)
                           "Erreur lors de la mise à jour du projet")) false w)
        as (-> & _ & Hloading & Htoast). done.
    + destruct (toast_then_ret ToastType.error "Erreur de mise à jour"
                  (Some (or_string (projectsStore.error_message response)
                           "Erreur lors de la mise à jour du projet")) false w)
        as (-> & _ & Hloading & Htoast). done.
    + destruct (toast_then_ret ToastType.error "Erreur de mise à jour"
                  (Some (or_string (projectsStore.error_message response)
                           "Erreur lors de la mise à jour du projet")) false w)
        as (-> & _ & Hloading & Htoast). done.
    + destruct (toast_then_ret ToastType.error "Erreur réseau"
                  (Some "Impossible de mettre à jour le projet") false w)
        as (-> & _ & Hloading & Htoast). done.
  - unfold projectsStore.deleteProject.
    destruct settled as [response|reason];
      [destruct (ApiResponse.success response)|].
    + rewrite exec_bind, eval_bind.
      set (w1 := exec (projects_update _) w).
      destruct (toast_then_ret ToastType.success "Projet supprimé"
                  (Some "Le projet a été supprimé avec succès") true w1)
        as (-> & _ & Hloading & Htoast).
      split; [exact Hloading|exact Htoast].
    + destruct (toast_then_ret ToastType.error "Erreur de suppression"
                  (Some (or_string (projectsStore.error_message response)
                           "Erreur lors de la suppression du projet")) false w)
        as (-> & _ & Hloading & Htoast). done.
    + destruct (toast_then_ret ToastType.error "Erreur réseau"
                  (Some "Impossible de supprimer le projet") false w)
        as (-> & _ & Hloading & Htoast). done.
Qed.

Lemma mutations_report_by_toast_witness :
  let w := initial_world distinct_draws in
  let action := projectsStore.updateProject 7 (Rejected "offline") in
  projectsLoading (exec action w) = LoadingState.mk false None
  ∧ (Toast.type <$> toasts (exec action w)) = [ToastType.error].
Proof.
  intros w action.
  destruct (mutations_report_by_toast w action) as (Hloading & toast & Htoasts & Htype).
  - right. left. by exists 7, (Rejected "offline").
  - split; [exact Hloading|]. rewrite Htoasts. simpl. by rewrite Htype.
Defined.

(** ** The category lists *)












(** ** The skills store *)

(** X13: [loadSkills] always ends with [isLoading] false. When the call
    succeeded the collection is the one the server returned and the error is
    cleared; otherwise the collection is unchanged and the error is set, to
    the error object of the server when there is one. *)
Theorem loadSkills_outcome (settled : Settled (list Skill.t)) (s : SkillsState) :
  let s' := skillsStore.loadSkills settled s in
  LoadingState.isLoading (skillsLoading s') = false
  ∧ match succeeded settled with
    | Some data => skills s' = data ∧ LoadingState.error (skillsLoading s') = None
    | None =>
        skills s' = skills s
        ∧ LoadingState.error (skillsLoading s') ≠ None
        ∧ forall response e,
            settled = Resolved response -> ApiResponse.error response = Some e ->
            LoadingState.error (skillsLoading s') = Some e
    end.
Proof.
  unfold skillsStore.loadSkills, skillsStore.loadSkills_settle, succeeded.
  destruct settled as [response|reason]; simpl.
  - destruct (ApiResponse.success response), (ApiResponse.data response); simpl;
      (split; [done|]); try done;
      (split_and!; [done|done|]); intros response' e [= <-] ->; done.
  - split_and!; done.
Qed.

Lemma skillsByCategory_lookup (localeCompare : string -> string -> Z) (collection : list Skill.t) :
  (forall skill, skill ∈ collection -> Skill.category skill ∉ Object_prototype_keys) ->
  exists grouped : gmap string (list Skill.t),
    skillsByCategory localeCompare collection = Some grouped
    ∧ forall c group, grouped !! c = Some group ->
        group ≡ₚ filter (fun skill => Skill.category skill = c) collection.
Proof.
  intros Hkeys.
  destruct (group_skills_lookup collection Hkeys) as (grouped & Hgrouped & Hlookup).
  exists (sort_by (compareSkills localeCompare) <$> grouped).
  split; [unfold skillsByCategory; by rewrite Hgrouped|].
  intros c group. rewrite lookup_fmap, Hlookup.
  destruct (filter (fun skill => Skill.category skill = c) collection) as [|first rest];
    [done|].
  intros [= <-]. apply (sort_by_Permutation _ (first :: rest)).
Qed.

Lemma elem_of_sort_by {A} (compare : A -> A -> Z) (l : list A) (x : A) :
  x ∈ sort_by compare l <-> x ∈ l.
Proof. by rewrite sort_by_Permutation. Qed.

(** X14: after a successful [deleteSkill id] the grouped view has no skill
    with the identifier [id] in any group, and every other skill of the
    collection is still in the group of its category. *)
Theorem deleteSkill_leaves_groups
    (localeCompare : string -> string -> Z) (id : Z)
    (response : ApiResponse.t unit) (s : SkillsState) :
  ApiResponse.success response = true ->
  (forall skill, skill ∈ skills s -> Skill.category skill ∉ Object_prototype_keys) ->
  let s' := snd (skillsStore.deleteSkill id (Resolved response) s) in
  exists grouped : gmap string (list Skill.t),
    skillsByCategory localeCompare (skills s') = Some grouped
    ∧ (forall c group skill,
         grouped !! c = Some group -> skill ∈ group -> Skill.id skill ≠ id)
    ∧ (forall skill,
         skill ∈ skills s -> Skill.id skill ≠ id ->
         exists group, grouped !! Skill.category skill = Some group ∧ skill ∈ group).
Proof.
  intros Hsuccess Hkeys s'. subst s'. simpl. rewrite Hsuccess. simpl.
  set (rest := filter (fun skill => Skill.id skill ≠ id) (skills s)).
  assert (Hkeys' : forall skill, skill ∈ rest -> Skill.category skill ∉ Object_prototype_keys).
  { intros skill Hin. apply Hkeys. by apply list_elem_of_filter in Hin as [_ ?]. }
  destruct (group_skills_lookup rest Hkeys') as (grouped & Hgrouped & Hlookup).
  exists (sort_by (compareSkills localeCompare) <$> grouped).
  split_and!; [unfold skillsByCategory; by rewrite Hgrouped| |].
  - intros c group skill. rewrite lookup_fmap, Hlookup.
    destruct (filter (fun sk => Skill.category sk = c) rest) as [|first others] eqn:Hgroup;
      [done|].
    intros [= <-]. intros Hin.
    apply (elem_of_sort_by _ (first :: others)) in Hin. rewrite <- Hgroup in Hin.
    apply list_elem_of_filter in Hin as [_ Hin].
    by apply list_elem_of_filter in Hin as [? _].
  - intros skill Hin Hne. rewrite lookup_fmap, Hlookup.
    assert (Hskill : skill ∈ filter (fun sk => Skill.category sk = Skill.category skill) rest).
    { apply list_elem_of_filter. split; [done|]. by apply list_elem_of_filter. }
    destruct (filter (fun sk => Skill.category sk = Skill.category skill) rest)
      as [|first others] eqn:Hgroup; [by apply elem_of_nil in Hskill|].
    eexists. split; [done|]. by apply (elem_of_sort_by _ (first :: others)).
Qed.

Lemma deleteSkill_leaves_groups_witness :
  exists grouped : gmap string (list Skill.t),
    skillsByCategory alphabetic_compare
      (skills (snd (skillsStore.deleteSkill 2 (Resolved (ApiResponse.mk true None None))
                      (mkSkillsState mockSkills (LoadingState.mk false None)))))
    = Some grouped
    ∧ forall c group skill,
        grouped !! c = Some group -> skill ∈ group -> Skill.id skill ≠ 2.
Proof.
  destruct (deleteSkill_leaves_groups alphabetic_compare 2 (ApiResponse.mk true None None)
              (mkSkillsState mockSkills (LoadingState.mk false None)))
    as (grouped & Hgrouped & Hgone & _).
  - reflexivity.
  - apply Forall_forall. apply (bool_decide_unpack _). by vm_compute.
  - exists grouped. split; [exact Hgrouped|exact Hgone].
Defined.

(** ** The contact store *)

(** X15: [sendMessage] returns whether the response says success, and that
    is what [contactSuccess] holds afterwards; [isLoading] is false; the
    error is cleared exactly when the call succeeded, so success and an error
    are never shown together; exactly one toast is queued, of type success or
    error like the result. *)
Theorem sendMessage_outcome (settled : Settled unit) (c : ContactWorld) :
  let result := fst (contactStore.sendMessage settled c) in
  let c' := snd (contactStore.sendMessage settled c) in
  result = match settled with
           | Resolved response => ApiResponse.success response
           | Rejected _ => false
           end
  ∧ contactSuccess c' = result
  ∧ LoadingState.isLoading (contactLoading c') = false
  ∧ (LoadingState.error (contactLoading c') = None <-> result = true)
  ∧ (forall response e,
       settled = Resolved response -> ApiResponse.success response = false ->
       ApiResponse.error response = Some e ->
       LoadingState.error (contactLoading c') = Some e)
  ∧ exists toast,
      toasts (app c') = toasts (app c) ++ [toast]
      ∧ Toast.type toast = if result then ToastType.success else ToastType.error.
Proof.
  unfold contactStore.sendMessage, contactStore.sendMessage_settle,
    contactStore.sendMessage_begin, contactStore.in_app.
  destruct settled as [response|reason]; simpl.
  - destruct (ApiResponse.success response) eqn:Hsuccess; simpl.
    + (split_and!; try done); [|by eexists].
      intros response' e [= <-]. congruence.
    + (split_and!; try done); [|by eexists].
      by intros response' e [= <-] _ ->.
  - split_and!; try done. by eexists.
Qed.

(** ** The contact form *)

Lemma matches_seq_inv (r1 r2 : ContactForm.regex) (s : ContactForm.jsstring) :
  matches (ContactForm.Seq r1 r2) s ->
  exists s1 s2, s = s1 ++ s2 ∧ matches r1 s1 ∧ matches r2 s2.
Proof. inversion 1; subst. eauto. Qed.

Lemma matches_alt_inv (r1 r2 : ContactForm.regex) (s : ContactForm.jsstring) :
  matches (ContactForm.Alt r1 r2) s -> matches r1 s ∨ matches r2 s.
Proof. inversion 1; subst; eauto. Qed.

Lemma matches_class_inv (accepts : N -> bool) (s : ContactForm.jsstring) :
  matches (ContactForm.Class accepts) s -> exists c, s = [c] ∧ accepts c = true.
Proof. inversion 1; subst. eauto. Qed.

Lemma nullable_matches (r : ContactForm.regex) :
  ContactForm.nullable r = true <-> matches r [].
Proof.
  induction r as [| |accepts|r1 IH1 r2 IH2|r1 IH1 r2 IH2|r IH]; simpl.
  - split; [done|]. inversion 1.
  - split; [constructor|done].
  - split; [done|]. inversion 1.
  - rewrite andb_true_iff, IH1, IH2. split.
    + intros [H1 H2]. exact (matches_seq _ _ [] [] H1 H2).
    + intros (s1 & s2 & Heq & H1 & H2)%matches_seq_inv.
      symmetry in Heq. apply app_eq_nil in Heq as [-> ->]. done.
  - rewrite orb_true_iff, IH1, IH2. split.
    + intros [H|H]; [by apply matches_alt_l|by apply matches_alt_r].
    + apply matches_alt_inv.
  - split; [constructor|done].
Qed.

Lemma matches_star_cons_inv (r : ContactForm.regex) (c : N) (s : ContactForm.jsstring) :
  matches (ContactForm.Star r) (c :: s) ->
  exists s1 s2, s = s1 ++ s2 ∧ matches r (c :: s1) ∧ matches (ContactForm.Star r) s2.
Proof.
  intros Hm. remember (ContactForm.Star r) as star eqn:Hstar.
  remember (c :: s) as cs eqn:Hcs.
  induction Hm as [| | | | | |r' s1 s2 H1 _ H2 IH2]; try discriminate.
  injection Hstar as ->. destruct s1 as [|c' s1]; simpl in Hcs.
  - by apply IH2.
  - injection Hcs as -> <-. by exists s1, s2.
Qed.

Lemma derive_matches (r : ContactForm.regex) :
  forall (c : N) (s : ContactForm.jsstring),
    matches (ContactForm.derive c r) s <-> matches r (c :: s).
Proof.
  induction r as [| |accepts|r1 IH1 r2 IH2|r1 IH1 r2 IH2|r IH]; intros c s; simpl.
  - split; inversion 1.
  - split; inversion 1.
  - destruct (accepts c) eqn:Hc; split.
    + inversion 1; subst. by constructor.
    + intros (c' & [= -> ->] & _)%matches_class_inv. constructor.
    + inversion 1.
    + intros (c' & [= -> ->] & Hc')%matches_class_inv. congruence.
  - assert (Hseq : matches (ContactForm.Seq (ContactForm.derive c r1) r2) s
                   <-> exists s1 s2, s = s1 ++ s2 ∧ matches r1 (c :: s1) ∧ matches r2 s2).
    { split.
      - intros (s1 & s2 & -> & H1 & H2)%matches_seq_inv.
        exists s1, s2. by rewrite <- IH1.
      - intros (s1 & s2 & -> & H1 & H2). constructor; [by apply IH1|done]. }
    assert (Hgoal : matches (ContactForm.Seq r1 r2) (c :: s)
                    <-> (exists s1 s2, s = s1 ++ s2 ∧ matches r1 (c :: s1) ∧ matches r2 s2)
                        ∨ (matches r1 [] ∧ matches r2 (c :: s))).
    { split.
      - intros (s1 & s2 & Heq & H1 & H2)%matches_seq_inv.
        destruct s1 as [|c' s1]; simpl in *.
        + right. by subst.
        + injection Heq as <- ->. left. by exists s1, s2.
      - intros [(s1 & s2 & -> & H1 & H2)|[H1 H2]].
        + exact (matches_seq _ _ (c :: s1) s2 H1 H2).
        + exact (matches_seq _ _ [] (c :: s) H1 H2). }
    rewrite Hgoal.
    destruct (ContactForm.nullable r1) eqn:Hnull.
    + apply nullable_matches in Hnull. split.
      * intros [H|H]%matches_alt_inv; [left; by apply Hseq|right; split; [done|by apply IH2]].
      * intros [H|[_ H]]; [apply matches_alt_l; by apply Hseq|].
        apply matches_alt_r. by apply IH2.
    + rewrite Hseq. split; [by left|]. intros [H|[H _]]; [done|].
      apply nullable_matches in H. congruence.
  - split.
    + intros [H|H]%matches_alt_inv;
        [apply matches_alt_l; by apply IH1|apply matches_alt_r; by apply IH2].
    + intros [H|H]%matches_alt_inv;
        [apply matches_alt_l; by apply IH1|apply matches_alt_r; by apply IH2].
  - split.
    + intros (s1 & s2 & -> & H1 & H2)%matches_seq_inv.
      apply IH in H1. exact (matches_star_cons _ (c :: s1) s2 H1 H2).
    + intros (s1 & s2 & -> & H1 & H2)%matches_star_cons_inv.
      constructor; [by apply IH|done].
Qed.

(** The matcher decides matching. *)
Lemma test_matches (r : ContactForm.regex) (s : ContactForm.jsstring) :
  ContactForm.test r s = true <-> matches r s.
Proof.
  unfold ContactForm.test. revert r.
  induction s as [|c s IH]; intros r; simpl.
  - apply nullable_matches.
  - rewrite IH. apply derive_matches.
Qed.

Lemma matches_star_class (accepts : N -> bool) (s : ContactForm.jsstring) :
  matches (ContactForm.Star (ContactForm.Class accepts)) s
  <-> Forall (fun c => accepts c = true) s.
Proof.
  split.
  - intros Hm. remember (ContactForm.Star (ContactForm.Class accepts)) as star eqn:Hstar.
    induction Hm as [| | | | | |r s1 s2 H1 _ H2 IH2]; try discriminate; [constructor|].
    injection Hstar as ->.
    apply matches_class_inv in H1 as (c & -> & Hc). constructor; [done|by apply IH2].
  - induction 1 as [|c s Hc _ IH]; [constructor|].
    exact (matches_star_cons _ [c] s (matches_class _ _ Hc) IH).
Qed.

Lemma matches_plus_class (accepts : N -> bool) (s : ContactForm.jsstring) :
  matches (ContactForm.Plus (ContactForm.Class accepts)) s
  <-> s ≠ [] ∧ Forall (fun c => accepts c = true) s.
Proof.
  unfold ContactForm.Plus. split.
  - intros (s1 & s2 & -> & (c & -> & Hc)%matches_class_inv & H2%matches_star_class)%matches_seq_inv.
    split; [done|]. by constructor.
  - intros [Hne Hall]. destruct Hall as [|c s Hc Hall]; [done|].
    apply (matches_seq _ _ [c] s); [by constructor|by apply matches_star_class].
Qed.

Lemma matches_char (c : N) (s : ContactForm.jsstring) :
  matches (ContactForm.Char c) s <-> s = [c].
Proof.
  unfold ContactForm.Char. split.
  - intros (c' & -> & Hc)%matches_class_inv. apply N.eqb_eq in Hc. by subst.
  - intros ->. constructor. apply N.eqb_refl.
Qed.

Lemma Forall_plain (s : ContactForm.jsstring) :
  Forall (fun c => negb (ContactForm.isWhiteSpace c || (c =? 64)%N) = true) s
  <-> Forall plain s.
Proof.
  apply Forall_iff. intros c. unfold plain.
  rewrite negb_true_iff, orb_false_iff, N.eqb_neq. done.
Qed.

Lemma matches_emailRegex (value : ContactForm.jsstring) :
  matches ContactForm.emailRegex value <-> email_shape value.
Proof.
  unfold ContactForm.emailRegex, ContactForm.not_space_at, email_shape. split.
  - intros (local & r1 & -> & [Hl Hlp]%matches_plus_class & H1)%matches_seq_inv.
    apply matches_seq_inv in H1 as (at_ & r2 & -> & ->%matches_char & H2).
    apply matches_seq_inv in H2 as (domain & r3 & -> & [Hd Hdp]%matches_plus_class & H3).
    apply matches_seq_inv in H3 as (dot & tld & -> & ->%matches_char & [Ht Htp]%matches_plus_class).
    exists local, domain, tld. rewrite <- !Forall_plain. done.
  - intros (local & domain & tld & -> & Hl & Hd & Ht & Hlp & Hdp & Htp).
    rewrite <- Forall_plain in Hlp, Hdp, Htp.
    repeat (apply matches_seq;
            [first [by apply matches_plus_class | by apply matches_char]|]).
    by apply matches_plus_class.
Qed.

Lemma trimStart_nil (s : ContactForm.jsstring) :
  ContactForm.trimStart s = [] <-> Forall (fun c => ContactForm.isWhiteSpace c = true) s.
Proof.
  induction s as [|c s IH]; simpl; [split; [constructor|done]|].
  destruct (ContactForm.isWhiteSpace c) eqn:Hc.
  - rewrite IH. split; [by constructor|]. by inversion 1.
  - split; [done|]. inversion 1; congruence.
Qed.

Lemma trimStart_whitespace_or_not (s : ContactForm.jsstring) :
  Forall (fun c => ContactForm.isWhiteSpace c = true) (ContactForm.trimStart s) ->
  ContactForm.trimStart s = [].
Proof.
  induction s as [|c s IH]; simpl; [done|].
  destruct (ContactForm.isWhiteSpace c) eqn:Hc; [done|].
  inversion 1; congruence.
Qed.

(** A value is blank exactly when it is made of white space. *)
Lemma blank_whitespace (value : ContactForm.jsstring) :
  ContactForm.blank value = true
  <-> Forall (fun c => ContactForm.isWhiteSpace c = true) value.
Proof.
  unfold ContactForm.blank, ContactForm.trim, ContactForm.trimEnd.
  transitivity (ContactForm.trimStart value = []).
  - destruct (reverse (ContactForm.trimStart (reverse (ContactForm.trimStart value))))
      as [|c rest] eqn:Hrev.
    + split; [intros _|done].
      apply (f_equal reverse) in Hrev. rewrite reverse_involutive in Hrev.
      change (reverse []) with (@nil N) in Hrev.
      apply (proj1 (trimStart_nil _)) in Hrev. apply (proj1 (Forall_reverse _ _)) in Hrev.
      by apply trimStart_whitespace_or_not.
    + split; [done|]. intros Hnil. rewrite Hnil in Hrev. done.
  - apply trimStart_nil.
Qed.

Lemma email_shape_not_blank (value : ContactForm.jsstring) :
  email_shape value -> ContactForm.blank value = false.
Proof.
  intros (local & domain & tld & -> & Hl & _ & _ & Hlp & _).
  destruct (ContactForm.blank _) eqn:Hblank; [|done].
  apply blank_whitespace in Hblank.
  destruct Hlp as [|c local [Hc _] _]; [done|].
  inversion Hblank; congruence.
Qed.

(** X16: the name passes exactly when its trimmed length is at least 2 and
    the subject exactly when its trimmed length is at least 5; a value made
    of white space only never passes. *)
Theorem validateField_name_subject (value : ContactForm.jsstring) :
  (ContactForm.validateField ContactForm.name value = None
   <-> (2 <= length (ContactForm.trim value))%nat)
  ∧ (ContactForm.validateField ContactForm.subject value = None
     <-> (5 <= length (ContactForm.trim value))%nat)
  ∧ (Forall (fun c => ContactForm.isWhiteSpace c = true) value ->
     forall f, ContactForm.validateField f value ≠ None).
Proof.
  split_and!.
  - unfold ContactForm.validateField, ContactForm.blank.
    destruct (ContactForm.trim value) as [|c trimmed]; simpl; [split; [done|lia]|].
    destruct (Nat.ltb_spec (S (length trimmed)) 2); split; (done || lia).
  - unfold ContactForm.validateField, ContactForm.blank.
    destruct (ContactForm.trim value) as [|c trimmed]; simpl; [split; [done|lia]|].
    destruct (Nat.ltb_spec (S (length trimmed)) 5); split; (done || lia).
  - intros Hblank%blank_whitespace f.
    destruct f; unfold ContactForm.validateField; by rewrite Hblank.
Qed.

(** X17: an email passes exactly when it reads [local@domain.tld], the three
    parts not empty and free of white space and [@]. In particular an email
    that passes has no white space, not even around it (the pattern is
    matched against the value as typed, not trimmed), and exactly one [@]. *)
Theorem validateField_email_shape (value : ContactForm.jsstring) :
  (ContactForm.validateField ContactForm.email value = None <-> email_shape value)
  ∧ (ContactForm.validateField ContactForm.email value = None ->
     Forall (fun c => ContactForm.isWhiteSpace c = false) value
     ∧ length (filter (fun c => c = 64%N) value) = 1%nat).
Proof.
  assert (Hiff : ContactForm.validateField ContactForm.email value = None
                 <-> email_shape value).
  { unfold ContactForm.validateField. split.
    - destruct (ContactForm.blank value); [done|].
      destruct (ContactForm.test ContactForm.emailRegex value) eqn:Htest; [|done].
      intros _. by apply matches_emailRegex, test_matches.
    - intros Hshape. rewrite (email_shape_not_blank value Hshape).
      apply matches_emailRegex, test_matches in Hshape. by rewrite Hshape. }
  split; [done|].
  intros (local & domain & tld & -> & _ & _ & _ & Hlp & Hdp & Htp)%Hiff.
  assert (Hat : forall part, Forall plain part -> filter (fun c => c = 64%N) part = []).
  { intros part Hpart. induction Hpart as [|c part [_ Hc] _ IH]; [done|].
    by rewrite filter_cons_False. }
  split.
  - rewrite !Forall_app. split_and!.
    + eapply Forall_impl; [exact Hlp|]. by intros c [? _].
    + by repeat constructor.
    + eapply Forall_impl; [exact Hdp|]. by intros c [? _].
    + by repeat constructor.
    + eapply Forall_impl; [exact Htp|]. by intros c [? _].
  - unfold ContactForm.jsstring. rewrite !filter_app. rewrite (Hat local Hlp), (Hat domain Hdp), (Hat tld Htp).
    reflexivity.
Qed.

Lemma validateField_email_shape_witness :
  ContactForm.validateField ContactForm.email
    (ContactForm.of_ascii_string "user.name@example.org") = None
  ∧ ContactForm.validateField ContactForm.email
      (ContactForm.of_ascii_string " a@b.c ") = Some "Format d'email invalide".
Proof.
  split.
  - apply (proj1 (validateField_email_shape _)).
    exists (ContactForm.of_ascii_string "user.name"),
      (ContactForm.of_ascii_string "example"), (ContactForm.of_ascii_string "org").
    split_and!; try done;
      apply Forall_forall; intros c Hc; vm_compute in Hc;
      repeat (apply elem_of_cons in Hc as [->|Hc]; [by split|]);
      by apply elem_of_nil in Hc.
  - reflexivity.
Defined.

Lemma keep_error_validateField (f : ContactForm.field) (value : ContactForm.jsstring) :
  keep_error (ContactForm.validateField f value) = ContactForm.validateField f value.
Proof.
  destruct f; unfold ContactForm.validateField;
    repeat match goal with |- context [if ?b then _ else _] => destruct b end;
    reflexivity.
Qed.

Lemma validateForm_errors (s : FormState) (f : ContactForm.field) :
  errors (snd (validateForm s)) f = ContactForm.validateField f (formData s f)
  ∧ formData (snd (validateForm s)) = formData s
  ∧ touched (snd (validateForm s)) = touched s.
Proof.
  split; [|done]. unfold validateForm, form_keys. cbn [foldl snd errors].
  rewrite !keep_error_validateField.
  destruct f;
    generalize (ContactForm.validateField ContactForm.name (formData s ContactForm.name)),
               (ContactForm.validateField ContactForm.email (formData s ContactForm.email)),
               (ContactForm.validateField ContactForm.subject
                  (formData s ContactForm.subject)),
               (ContactForm.validateField ContactForm.message
                  (formData s ContactForm.message));
    intros [?|] [?|] [?|] [?|]; reflexivity.
Qed.

Lemma validateForm_result (s : FormState) :
  fst (validateForm s) = true
  <-> forall f, ContactForm.validateField f (formData s f) = None.
Proof.
  change (fst (validateForm s))
    with (forallb (fun key => bool_decide (errors (snd (validateForm s)) key = None))
            form_keys).
  rewrite forallb_forall. split.
  - intros Hall f. destruct (validateForm_errors s f) as (<- & _).
    eapply bool_decide_eq_true_1, Hall. destruct f; simpl; tauto.
  - intros Hall f _. apply bool_decide_eq_true_2.
    destruct (validateForm_errors s f) as (-> & _). apply Hall.
Qed.

Lemma touch_all (touched0 : ContactForm.field -> bool) (f : ContactForm.field) :
  foldl (fun acc key => set_field key true acc) touched0 form_keys f = true.
Proof. by destruct f. Qed.

(** X18: whatever happens to the form (the user leaves a field, types into a
    field, submits; a message is sent or not), the errors the form holds are
    exactly the errors of the touched fields for their current values, and a
    field that was not touched has no error. *)
Theorem form_errors_in_sync (events : list FormEvent) :
  form_in_sync (foldl form_step initial_form events).
Proof.
  assert (Hstep : forall s e, form_in_sync s -> form_in_sync (form_step s e)).
  { intros s e Hsync f. destruct e as [g|g value| |sent]; simpl.
    - unfold handleBlur, set_field; simpl. rewrite keep_error_validateField.
      destruct (decide (f = g)) as [->|]; [done|apply Hsync].
    - unfold handleInput. specialize (Hsync f).
      destruct (touched s g) eqn:Hg; unfold set_field; simpl;
        rewrite ?keep_error_validateField;
        destruct (decide (f = g)) as [->|]; try done;
        rewrite Hg in *; done.
    - unfold handleSubmit_begin.
      set (s1 := mkFormState (formData s) (errors s) _).
      pose proof (validateForm_errors s1 f) as (He & Hd & Ht).
      destruct (validateForm s1) as [valid s2]. simpl in He, Hd, Ht.
      assert (Htouched : touched s2 f = true) by (rewrite Ht; apply touch_all).
      destruct valid; simpl; by rewrite He, Hd, Htouched.
    - unfold handleSubmit_settle. destruct sent; [done|apply Hsync]. }
  induction events as [|e events IH] using rev_ind; [done|].
  rewrite foldl_snoc. by apply Hstep.
Qed.

(** X19: [handleSubmit] hands a message to the contact store exactly when
    all four fields pass their rule, and the message is the form data as it
    stands; otherwise nothing is sent, every field counts as touched and
    every failing field has its error. *)
Theorem handleSubmit_sends_valid_only (s : FormState) :
  let sent := fst (handleSubmit_begin s) in
  let s' := snd (handleSubmit_begin s) in
  (sent = Some (formData s)
   ∧ forall f, ContactForm.validateField f (formData s f) = None)
  ∨ (sent = None
     ∧ (exists f, ContactForm.validateField f (formData s f) ≠ None)
     ∧ forall f, touched s' f = true
                 ∧ errors s' f = ContactForm.validateField f (formData s f)).
Proof.
  unfold handleSubmit_begin.
  set (s1 := mkFormState (formData s) (errors s) _).
  pose proof (validateForm_result s1) as Hresult.
  pose proof (validateForm_errors s1) as Herrors.
  destruct (validateForm s1) as [valid s2]. simpl in *.
  destruct valid; simpl.
  - left. destruct (Herrors ContactForm.name) as (_ & -> & _).
    split; [done|]. by apply Hresult.
  - right. split; [done|]. split.
    + destruct (ContactForm.validateField ContactForm.name (formData s ContactForm.name))
        eqn:Hname; [exists ContactForm.name; congruence|].
      destruct (ContactForm.validateField ContactForm.email (formData s ContactForm.email))
        eqn:Hemail; [exists ContactForm.email; congruence|].
      destruct (ContactForm.validateField ContactForm.subject
                  (formData s ContactForm.subject))
        eqn:Hsubject; [exists ContactForm.subject; congruence|].
      destruct (ContactForm.validateField ContactForm.message
                  (formData s ContactForm.message))
        eqn:Hmessage; [exists ContactForm.message; congruence|].
      assert (Hfalse : false = true); [|done].
      apply Hresult. by intros [].
    + intros f. destruct (Herrors f) as (-> & _ & ->). split; [apply touch_all|done].
Qed.

(** ** The skill badge *)

Lemma getSkillLevelDisplay_fallback (level : Z) :
  level <= 0 ∨ 5 < level -> getSkillLevelDisplay level = getSkillLevelDisplay 1.
Proof.
  intros Hout. unfold getSkillLevelDisplay at 1, index.
  destruct (Z.ltb_spec (level - 1) 0) as [|Hge]; [done|].
  rewrite (lookup_ge_None_2 levels (Z.to_nat (level - 1))); [done|].
  simpl. lia.
Qed.

(** X20: the badge always shows five indicators, the filled ones first; their
    number is the level, held between 0 and 5. *)
Theorem getLevelIndicators_clamped (level : Z) :
  let filled := Z.to_nat (Z.max 0 (Z.min level 5)) in
  getLevelIndicators level = replicate filled "filled" ++ replicate (5 - filled) "empty"
  ∧ length (getLevelIndicators level) = 5%nat.
Proof.
  intros filled. split; [|reflexivity]. subst filled.
  unfold getLevelIndicators. simpl.
  assert (Hcases : level <= 0 ∨ level = 1 ∨ level = 2 ∨ level = 3 ∨ level = 4 ∨ 5 <= level)
    by lia.
  destruct Hcases as [H|[H|[H|[H|[H|H]]]]];
    repeat match goal with
           | |- context [?a <? level] => destruct (Z.ltb_spec a level); try lia
           end.
  - by replace (Z.to_nat (Z.max 0 (Z.min level 5))) with 0%nat by lia.
  - by subst level.
  - by subst level.
  - by subst level.
  - by subst level.
  - by replace (Z.to_nat (Z.max 0 (Z.min level 5))) with 5%nat by lia.
Qed.

Lemma level_cases (level : Z) :
  1 <= level <= 5 -> level = 1 ∨ level = 2 ∨ level = 3 ∨ level = 4 ∨ level = 5.
Proof. lia. Qed.

(** X21: label and color of the badge go together: for a level from 1 to 5
    they are those of the level, for any other level both are those of level
    1; and from 1 to 5 no two levels share a label or a color. *)
Theorem level_label_and_color (level : Z) :
  let shown := if (1 <=? level) && (level <=? 5) then level else 1 in
  getSkillLevelDisplay level = getSkillLevelDisplay shown
  ∧ getSkillLevelColor level = getSkillLevelColor shown
  ∧ (forall a b, 1 <= a <= 5 -> 1 <= b <= 5 ->
       getSkillLevelDisplay a = getSkillLevelDisplay b
       ∨ getSkillLevelColor a = getSkillLevelColor b -> a = b).
Proof.
  intros shown. subst shown. split_and!.
  - destruct (Z.leb_spec 1 level), (Z.leb_spec level 5); simpl; try done.
    + by apply getSkillLevelDisplay_fallback; right.
    + by apply getSkillLevelDisplay_fallback; left; lia.
    + by apply getSkillLevelDisplay_fallback; left; lia.
  - destruct (Z.leb_spec 1 level), (Z.leb_spec level 5); simpl; try done;
      unfold getSkillLevelColor, index;
      (destruct (Z.ltb_spec (level - 1) 0); [done|]);
      rewrite (lookup_ge_None_2 level_colors (Z.to_nat (level - 1))); simpl; done || lia.
  - intros a b Ha%level_cases Hb%level_cases Heq.
    destruct Ha as [->|[->|[->|[->| ->]]]], Hb as [->|[->|[->|[->| ->]]]];
      try reflexivity; destruct Heq as [Heq|Heq]; vm_compute in Heq; discriminate Heq.
Qed.

(** ** The API client, continued *)

(** X22: for a response with a non-2xx status, and when [fetch] throws,
    [request] always returns a failure, and the failure always carries a
    truthy error: a caller never has to fall back on [UNKNOWN_ERROR] for
    them. *)
Theorem request_failure_on_error_status (fetched : Js.completion ApiClient.Response) :
  (forall response, fetched = Js.Normal response -> ApiClient.ok response = false) ->
  exists error,
    ApiClient.request fetched = Js.Normal (ApiClient.failure error)
    ∧ Js.truthy error = true.
Proof.
  intros Hstatus.
  unfold ApiClient.request, Js.try_catch, mbind, Js.completion_bind, mret, Js.completion_ret.
  destruct fetched as [response|reason]; [|by eexists].
  rewrite (Hstatus response eq_refl).
  destruct (ApiClient.json response) as [data|reason]; [|by eexists].
  simpl. destruct (Js.get data "error") as [error|reason]; [|by eexists].
  eexists. split; [done|]. unfold Js.or.
  by destruct (Js.truthy error) eqn:Herror.
Qed.

Lemma request_failure_on_error_status_witness :
  exists error,
    ApiClient.request (Js.Normal server_error_response)
    = Js.Normal (ApiClient.failure error)
    ∧ Js.truthy error = true.
Proof.
  apply request_failure_on_error_status.
  intros response [= <-]. reflexivity.
Defined.

(** X23: [getProjects] asks for [/api/projects] alone exactly when the
    category is absent or empty and [featured] is absent; a category that is
    given comes first, encoded, and [featured] is sent as [true] or [false],
    also when it is false. *)
Theorem getProjects_endpoint_shape (category : option string) (featured : option bool) :
  let flag := fun b : bool => if b then "true" else "false" in
  getProjects_endpoint category featured
  = match or_string category EmptyString, featured with
    | EmptyString, None => "/api/projects"
    | EmptyString, Some b => "/api/projects?featured=" +:+ flag b
    | c, None => "/api/projects?category=" +:+ form_urlencode c
    | c, Some b =>
        "/api/projects?category=" +:+ form_urlencode c +:+ "&featured=" +:+ flag b
    end.
Proof.
  destruct category as [[|ch c]|], featured as [[|]|]; reflexivity.
Qed.

Lemma hex_digit_alphanumeric (n : N) : (n < 16)%N -> is_alphanumeric (hex_digit n) = true.
Proof.
  intros Hn.
  assert (Hcases : Forall (fun k => is_alphanumeric (hex_digit (N.of_nat k)) = true) (seq 0 16))
    by (apply (bool_decide_unpack _); by vm_compute).
  rewrite Forall_forall in Hcases.
  rewrite <- (N2Nat.id n). apply Hcases. apply elem_of_seq. lia.
Qed.

Lemma percent_encode_safe (c : ascii) : Forall url_safe (percent_encode c).
Proof.
  assert (Hc : (N_of_ascii c < 256)%N) by apply N_ascii_bounded.
  unfold percent_encode, url_safe.
  apply Forall_cons_2; [|apply Forall_cons_2; [|apply Forall_cons_2; [|constructor]]].
  - right. apply (bool_decide_unpack _). by vm_compute.
  - left. apply hex_digit_alphanumeric. apply N.Div0.div_lt_upper_bound. lia.
  - left. apply hex_digit_alphanumeric. by apply N.mod_lt.
Qed.

Lemma Forall_singleton_safe (c : ascii) : url_safe c -> Forall url_safe [c].
Proof. intros Hc. by apply Forall_cons_2. Qed.

Lemma one_of_safe (c : ascii) :
  one_of "*-._" c = true ∨ one_of "-_.!~*'()" c = true -> url_safe c.
Proof.
  unfold one_of, url_safe. rewrite !bool_decide_eq_true. intros [Hin|Hin]; right; simpl in *;
    repeat (apply elem_of_cons in Hin as [->|Hin];
            [apply (bool_decide_unpack _); by vm_compute|]);
    by apply elem_of_nil in Hin.
Qed.

(** X24: whatever the category is, both encoders produce only letters,
    digits and the characters [-_.!~*'()+%]: no [&], [=], [?], [#], [/],
    space or byte above 127 gets into the query string, so a category
    cannot add or cut a parameter. *)
Theorem encoders_are_url_safe (s : string) :
  Forall url_safe (list_ascii_of_string (form_urlencode s))
  ∧ Forall url_safe (list_ascii_of_string (encodeURIComponent s))
  ∧ forall c, url_safe c ->
      (c ∉ list_ascii_of_string "&=?#/ ") ∧ (N_of_ascii c < 128)%N.
Proof.
  split_and!.
  - unfold form_urlencode. rewrite list_ascii_of_string_of_list_ascii.
    apply Forall_bind, Forall_forall. intros c _. unfold compose. cbv beta.
    destruct (is_alphanumeric c) eqn:Halnum; simpl; [apply Forall_singleton_safe; by left|].
    destruct (one_of "*-._" c) eqn:Hmark; [apply Forall_singleton_safe, one_of_safe; by left|].
    destruct (Ascii.eqb c " ") eqn:Hspace; [|apply percent_encode_safe].
    apply Forall_singleton_safe. right. apply (bool_decide_unpack _). by vm_compute.
  - unfold encodeURIComponent. rewrite list_ascii_of_string_of_list_ascii.
    apply Forall_bind, Forall_forall. intros c _. unfold compose. cbv beta.
    destruct (is_alphanumeric c) eqn:Halnum; simpl; [apply Forall_singleton_safe; by left|].
    destruct (one_of "-_.!~*'()" c) eqn:Hmark;
      [apply Forall_singleton_safe, one_of_safe; by right|].
    apply percent_encode_safe.
  - unfold url_safe. intros c [Halnum|Hmark].
    + unfold is_alphanumeric in Halnum. split.
      * intros Hin. simpl in Hin.
        repeat (apply elem_of_cons in Hin as [->|Hin]; [by vm_compute in Halnum|]).
        by apply elem_of_nil in Hin.
      * cbv zeta in Halnum.
        rewrite !orb_true_iff, !andb_true_iff, !N.leb_le in Halnum. lia.
    + simpl in Hmark.
      repeat (apply elem_of_cons in Hmark as [->|Hmark];
              [split; [apply (bool_decide_unpack _); by vm_compute|by vm_compute]|]).
      by apply elem_of_nil in Hmark.
Qed.

(** ** The project grid *)

(** X25: without a search text, the number of projects the grid shows for a
    category is the count its filter button displays ([all] included), the
    projects shown keep their order, and with [all] the grid shows the whole
    collection. *)
Theorem filteredProjects_count
    (toLowerCase : string -> string) (category : string) (collection : list Project.t) :
  length (filteredProjects toLowerCase category EmptyString collection)
  = getCategoryCount collection category
  ∧ (filteredProjects toLowerCase category EmptyString collection `sublist_of` collection)
  ∧ filteredProjects toLowerCase "all" EmptyString collection = collection.
Proof.
  assert (Hmatch : forall project,
             matches_filters toLowerCase category EmptyString project = true
             <-> category = "all" ∨ Project.category project = category).
  { intros project. unfold matches_filters. simpl.
    rewrite andb_true_r, orb_true_iff, !bool_decide_eq_true. done. }
  assert (Hall : forall l : list Project.t,
             filter (fun project => matches_filters toLowerCase "all" EmptyString project = true) l
             = l).
  { intros l. induction l as [|project l IH]; [done|].
    rewrite filter_cons_True by done. by rewrite IH. }
  split_and!.
  - unfold filteredProjects, getCategoryCount. case_bool_decide as Hcat.
    + subst category. by rewrite Hall.
    + f_equal. apply list_filter_iff. intros project. rewrite Hmatch. tauto.
  - apply sublist_filter.
  - apply Hall.
Qed.

Lemma featured_first_le (getTime : string -> Z) (a b : Project.t) :
  featured_first getTime a b <= 0 <-> featured_order getTime a b.
Proof.
  unfold featured_first, newest_first, featured_order.
  destruct (Project.featured a), (Project.featured b); simpl;
    split; intros H; try lia; try tauto;
    try (right; split; [done|lia]); try (by left);
    destruct H as [[? ?]|[? ?]]; try discriminate; lia.
Qed.

(** X26: the grid shows the filtered projects, each once, reordered: with
    featured first, every featured project comes before every project that
    is not, and among projects alike in that the newer comes first; without,
    the newer always comes first. *)
Theorem sortedProjects_order
    (getTime : string -> Z) (showFeaturedFirst : bool) (filtered : list Project.t) :
  sortedProjects getTime showFeaturedFirst filtered ≡ₚ filtered
  ∧ StronglySorted
      (if showFeaturedFirst then featured_order getTime
       else fun a b => getTime (Project.created_at b) <= getTime (Project.created_at a))
      (sortedProjects getTime showFeaturedFirst filtered).
Proof.
  unfold sortedProjects. destruct showFeaturedFirst.
  - split; [apply sort_by_Permutation|].
    apply (StronglySorted_weaken (fun a b => featured_first getTime a b <= 0));
      [intros a b; apply featured_first_le|apply sort_by_StronglySorted].
    + intros a b. rewrite !featured_first_le. unfold featured_order.
      destruct (Project.featured a), (Project.featured b); try tauto;
        destruct (Z.le_ge_cases (getTime (Project.created_at a))
                    (getTime (Project.created_at b))); tauto.
    + intros a b c. rewrite !featured_first_le. unfold featured_order.
      intros H1 H2.
      destruct (Project.featured a), (Project.featured b), (Project.featured c),
        H1 as [[? ?]|[? ?]], H2 as [[? ?]|[? ?]]; try discriminate;
        first [ left; split; reflexivity | right; split; [reflexivity|lia] ].
  - split; [apply sort_by_Permutation|].
    apply (StronglySorted_weaken (fun a b => newest_first getTime a b <= 0));
      [|apply sort_by_StronglySorted].
    + intros a b. unfold newest_first. lia.
    + intros a b. unfold newest_first. lia.
    + intros a b c. unfold newest_first. lia.
Qed.

(** ** The error logger *)

Lemma push_spec (entry : errorLogger.LoggedError) (logs : list errorLogger.LoggedError) :
  (length logs <= errorLogger.maxLogs)%nat ->
  (length (errorLogger.push entry logs) <= errorLogger.maxLogs)%nat
  ∧ last (errorLogger.push entry logs) = Some entry
  ∧ ((length logs < errorLogger.maxLogs)%nat ->
     errorLogger.push entry logs = logs ++ [entry])
  ∧ (length logs = errorLogger.maxLogs ->
     errorLogger.push entry logs = drop 1 logs ++ [entry]).
Proof.
  unfold errorLogger.push, errorLogger.maxLogs. intros Hbound.
  rewrite length_app. simpl.
  destruct (Nat.ltb_spec 100 (length logs + 1)) as [Hfull|Hroom].
  - assert (Hlen : length logs = 100%nat) by lia.
    replace (length logs + 1 - 100)%nat with 1%nat by lia.
    rewrite drop_app_le by lia.
    split_and!.
    + rewrite length_app, length_drop. simpl. lia.
    + by rewrite last_snoc.
    + lia.
    + done.
  - split_and!.
    + rewrite length_app. simpl. lia.
    + by rewrite last_snoc.
    + done.
    + lia.
Qed.

Lemma run_bound (toLowerCase : string -> string)
    (logs : list errorLogger.LoggedError) (c : errorLogger.Call) :
  (length logs <= errorLogger.maxLogs)%nat ->
  (length (errorLogger.run toLowerCase logs c) <= errorLogger.maxLogs)%nat.
Proof.
  intros Hbound. destruct c as [host e ctx|host message ctx|host message ctx|]; simpl.
  - unfold errorLogger.logError.
    destruct (errorLogger.shouldIgnoreError toLowerCase e); [done|].
    by apply push_spec.
  - by apply push_spec.
  - by apply push_spec.
  - unfold errorLogger.maxLogs. lia.
Qed.

(** X27: the logger never holds more than 100 entries, whatever is logged
    since the module was loaded. An entry that is recorded is the last one;
    when the log is full, recording drops exactly the oldest entry. *)
Theorem logger_keeps_last_100
    (toLowerCase : string -> string) (calls : list errorLogger.Call) :
  (length (foldl (errorLogger.run toLowerCase) [] calls) <= 100)%nat
  ∧ forall entry logs,
      (length logs <= 100)%nat ->
      last (errorLogger.push entry logs) = Some entry
      ∧ (length logs = 100%nat -> errorLogger.push entry logs = drop 1 logs ++ [entry])
      ∧ ((length logs < 100)%nat -> errorLogger.push entry logs = logs ++ [entry]).
Proof.
  split.
  - induction calls as [|c calls IH] using rev_ind; [simpl; lia|].
    rewrite foldl_snoc. by apply run_bound.
  - intros entry logs Hbound.
    destruct (push_spec entry logs Hbound) as (_ & Hlast & Hroom & Hfull). done.
Qed.

Lemma level_partition (logs : list errorLogger.LoggedError) :
  length logs
  = (length (errorLogger.getLogsByLevel errorLogger.error logs)
     + length (errorLogger.getLogsByLevel errorLogger.warning logs)
     + length (errorLogger.getLogsByLevel errorLogger.info logs)
     + length (errorLogger.getLogsByLevel errorLogger.debug logs))%nat.
Proof.
  unfold errorLogger.getLogsByLevel.
  induction logs as [|log logs IH]; [done|].
  destruct (errorLogger.level log) eqn:Hlevel.
  - rewrite (filter_cons_True (fun l => errorLogger.level l = errorLogger.error)) by done.
    rewrite !filter_cons_False by congruence. simpl. lia.
  - rewrite (filter_cons_True (fun l => errorLogger.level l = errorLogger.warning)) by done.
    rewrite !filter_cons_False by congruence. simpl. lia.
  - rewrite (filter_cons_True (fun l => errorLogger.level l = errorLogger.info)) by done.
    rewrite !filter_cons_False by congruence. simpl. lia.
  - rewrite (filter_cons_True (fun l => errorLogger.level l = errorLogger.debug)) by done.
    rewrite !filter_cons_False by congruence. simpl. lia.
Qed.

Lemma push_elem_of (entry log : errorLogger.LoggedError)
    (logs : list errorLogger.LoggedError) :
  log ∈ errorLogger.push entry logs -> log ∈ logs ∨ log = entry.
Proof.
  unfold errorLogger.push. intros Hin.
  assert (Hin' : log ∈ logs ++ [entry]).
  { destruct (_ <? _)%nat; [|done]. eapply elem_of_sublist; [exact Hin|].
    apply sublist_drop. }
  apply elem_of_app in Hin' as [?|Hin']; [by left|].
  apply list_elem_of_singleton in Hin'. by right.
Qed.

Lemma run_no_debug (toLowerCase : string -> string)
    (logs : list errorLogger.LoggedError) (c : errorLogger.Call) :
  Forall (fun log => errorLogger.level log ≠ errorLogger.debug) logs ->
  Forall (fun log => errorLogger.level log ≠ errorLogger.debug)
    (errorLogger.run toLowerCase logs c).
Proof.
  intros Hlogs. apply Forall_forall. intros log Hin.
  rewrite Forall_forall in Hlogs.
  destruct c as [host e ctx|host message ctx|host message ctx|]; simpl in Hin.
  - unfold errorLogger.logError in Hin.
    destruct (errorLogger.shouldIgnoreError toLowerCase e); [by apply Hlogs|].
    apply push_elem_of in Hin as [Hin| ->]; [by apply Hlogs|done].
  - apply push_elem_of in Hin as [Hin| ->]; [by apply Hlogs|done].
  - apply push_elem_of in Hin as [Hin| ->]; [by apply Hlogs|done].
  - by apply elem_of_nil in Hin.
Qed.

(** X28: the statistics add up: the total is the sum of the four counts by
    level, the count of recent entries is at most the total, and the count
    at level debug is always 0, as nothing is ever logged at that level. *)
Theorem getStats_adds_up
    (toLowerCase : string -> string) (calls : list errorLogger.Call) (now : Z) :
  let stats := errorLogger.getStats now (foldl (errorLogger.run toLowerCase) [] calls) in
  errorLogger.total stats
  = (errorLogger.errors stats + errorLogger.warnings stats
     + errorLogger.infos stats + errorLogger.debugs stats)%nat
  ∧ errorLogger.debugs stats = 0%nat
  ∧ (errorLogger.recent stats <= errorLogger.total stats)%nat.
Proof.
  intros stats. subst stats. simpl. split_and!.
  - apply level_partition.
  - assert (Hnone : Forall (fun log => errorLogger.level log ≠ errorLogger.debug)
                      (foldl (errorLogger.run toLowerCase) [] calls)).
    { induction calls as [|c calls IH] using rev_ind; [constructor|].
      rewrite foldl_snoc. by apply run_no_debug. }
    induction Hnone as [|log logs Hlog _ IH]; [done|].
    by rewrite filter_cons_False.
  - apply length_filter.
Qed.
